(** * Hedwig message validator ([hedwig/validator.py])

    A shallow embedding of [MessageValidator] and [FormatValidator] and the
    properties of the validator specification that concern them.

    Conventions of the embedding:
    - a Python [str] is a [string]; decoded JSON/YAML documents are [value]s,
      a [dict] being an association list in insertion order with string keys;
    - a raised exception is the [Raise] outcome of a computation;
    - the structural-validation engine ([jsonschema]) is not part of the
      repository: its three entry points used by the validator are calls
      answered by a handler, so that every theorem holds for any engine. *)

From Stdlib Require Import ZArith Ascii String List Bool Lia.
From Stdlib Require Import Floats.SpecFloat Numbers.DecimalString.
From stdpp Require Import base option list strings gmap.

Local Open Scope Z_scope.

(** ** Python values *)

(** What [json.loads] produces, and [yaml.safe_load] for a document whose
    mappings have string keys.  A YAML mapping with keys of another type is
    outside this type. *)
#[warnings="-register-all"]
Inductive value : Type :=
| VNone
| VBool (b : bool)
| VInt (z : Z)
| VFloat (f : spec_float)
| VStr (s : string)
| VList (l : list value)
| VDict (d : list (string * value)).

Definition pydict : Type := list (string * value).

(** [bool(v)]: the truth value Python gives to [v] in [if v] / [not v]. *)
Definition truthy (v : value) : bool :=
  match v with
  | VNone => false
  | VBool b => b
  | VInt z => negb (z =? 0)
  | VFloat (S754_zero _) => false
  | VFloat _ => true
  | VStr s => negb (String.eqb s "")
  | VList l => match l with [] => false | _ => true end
  | VDict d => match d with [] => false | _ => true end
  end.

(** [d.get(k)] on a dict: the value stored under [k], [None] when absent. *)
Fixpoint dict_get {A} (d : list (string * A)) (k : string) : option A :=
  match d with
  | [] => None
  | (k', v) :: d' => if String.eqb k' k then Some v else dict_get d' k
  end.

Definition get_or_none (d : pydict) (k : string) : value :=
  match dict_get d k with Some v => v | None => VNone end.

(** ** Regular expressions

    The fragment of Python's [re] syntax that [_human_uuid_re] is written in:
    anchors, literal characters and a character set repeated a fixed number
    of times. *)
Inductive re_item : Type :=
| Caret                                              (* ^ *)
| Dollar                                             (* $ *)
| Lit (c : ascii)                                    (* c *)
| SetRep (ranges : list (ascii * ascii)) (n : nat).  (* [a-b...]{n} *)

Definition newline : ascii := "010"%char.

Definition in_set (ranges : list (ascii * ascii)) (c : ascii) : bool :=
  existsb (fun r => (N_of_ascii (fst r) <=? N_of_ascii c)%N
                    && (N_of_ascii c <=? N_of_ascii (snd r))%N) ranges.

(** Consume exactly [n] characters of the set. *)
Fixpoint take_set (ranges : list (ascii * ascii)) (n : nat) (s : string)
  : option string :=
  match n with
  | O => Some s
  | S n' =>
      match s with
      | String c s' => if in_set ranges c then take_set ranges n' s' else None
      | EmptyString => None
      end
  end.

(** [$] without [re.MULTILINE]: "matches at the end of the string or just
    before the newline at the end of the string". *)
Definition at_dollar (s : string) : bool :=
  match s with
  | EmptyString => true
  | String c EmptyString => Ascii.eqb c newline
  | _ => false
  end.

(** Match the pattern [p] against [s], [pos] characters into the subject. *)
Fixpoint match_items (pos : nat) (p : list re_item) (s : string) : bool :=
  match p with
  | [] => true
  | Caret :: p' => Nat.eqb pos 0 && match_items pos p' s
  | Dollar :: p' => at_dollar s && match_items pos p' s
  | Lit c :: p' =>
      match s with
      | String c' s' => Ascii.eqb c c' && match_items (S pos) p' s'
      | EmptyString => false
      end
  | SetRep ranges n :: p' =>
      match take_set ranges n s with
      | Some s' => match_items (pos + n) p' s'
      | None => false
      end
  end.

(** [bool(pattern.match(s))]: a match anchored at the start of [s]. *)
Definition re_match (p : list re_item) (s : string) : bool := match_items 0 p s.


(** ** Exceptions and outcomes *)

(** One structural violation reported by the engine. *)
Record violation : Type := Violation {
  path_in_data : list string;
  constraint_violated : string;
  message : string
}.

Inductive exn : Type :=
| ValidationError (errors : option (list violation))
    (* hedwig.exceptions.ValidationError; [None] for a bare [raise ValidationError] *)
| SchemaError (errors : list string)
| RefResolutionError
| ValueError
| AttributeError
| TypeError
| KeyError
| IndexError
| OtherError (name : string).

Inductive result (A : Type) : Type :=
| Ok (a : A)
| Raise (e : exn).
Arguments Ok {A} a.
Arguments Raise {A} e.

#[global] Instance result_ret : MRet result := λ A a, Ok a.
#[global] Instance result_bind : MBind result := λ A B f r,
  match r with
  | Ok a => f a
  | Raise e => Raise e
  end.

(** ** Calls into the structural-validation engine *)

Inductive libcall : Type -> Type :=
| Resolve (ref : string) : libcall (string * value)
    (* self.resolver.resolve(ref) *)
| IterErrors (instance : value) (_schema : option value) : libcall (list violation)
    (* list(self.iter_errors(instance, _schema)) *)
| SuperCheckSchema (schema : pydict) : libcall unit.
    (* Draft4Validator.check_schema(schema) *)

(** A method body: it ends with an outcome or asks the engine and goes on
    with the engine's answer, which may be an exception. *)
Inductive prog (A : Type) : Type :=
| Done (r : result A)
| Call {X : Type} (c : libcall X) (k : result X -> prog A).
Arguments Done {A} r.
Arguments Call {A X} c k.

Definition raise {A} (e : exn) : prog A := Done (Raise e).
Definition lift {A} (r : result A) : prog A := Done r.
Definition call {X} (c : libcall X) : prog X := Call c Done.

Fixpoint prog_bind_fix {A B} (f : A → prog B) (p : prog A) : prog B :=
  match p with
  | Done (Ok a) => f a
  | Done (Raise e) => Done (Raise e)
  | Call c k => Call c (λ r, prog_bind_fix f (k r))
  end.

#[global] Instance prog_ret : MRet prog := λ A a, Done (Ok a).
#[global] Instance prog_bind : MBind prog := λ A B f p, prog_bind_fix f p.

(** [try: p except ...: handler], the handler re-raising what it does not
    catch. *)
Fixpoint try_except {A} (p : prog A) (handler : exn -> prog A) : prog A :=
  match p with
  | Done (Ok a) => Done (Ok a)
  | Done (Raise e) => handler e
  | Call c k => Call c (fun r => try_except (k r) handler)
  end.

(** A recorded call. *)
Inductive event : Type :=
| Ev {X : Type} (c : libcall X).

(** The engine, over a world [W] it may read and change. *)
Definition handler (W : Type) : Type := ∀ X, libcall X → W → result X * W.

(** Run a method body against an engine: outcome, final world, calls made. *)
Fixpoint run {W A} (h : handler W) (p : prog A) (w : W)
  : result A * W * list event :=
  match p with
  | Done r => (r, w, [])
  | Call c k =>
      let '(r, w1) := h _ c w in
      let '(out, w2, tr) := run h (k r) w1 in
      (out, w2, Ev c :: tr)
  end.

Definition outcome {W A} (x : result A * W * list event) : result A := x.1.1.
Definition final_world {W A} (x : result A * W * list event) : W := x.1.2.
Definition calls {W A} (x : result A * W * list event) : list event := x.2.

(** ** [distutils.version.StrictVersion]

    The Python standard library class the schema check parses version
    strings with. *)
Module distutils.

Definition is_digit (c : ascii) : bool :=
  (48 <=? N_of_ascii c)%N && (N_of_ascii c <=? 57)%N.

(** The longest run of digits at the head of [s], and what follows it. *)
Fixpoint span_digits (s : string) : string * string :=
  match s with
  | String c s' =>
      if is_digit c
      then let '(d, r) := span_digits s' in (String c d, r)
      else (EmptyString, s)
  | EmptyString => (EmptyString, EmptyString)
  end.

(** [\d+] *)
Definition digits1 (s : string) : option (string * string) :=
  match span_digits s with
  | (EmptyString, _) => None
  | (d, r) => Some (d, r)
  end.

(** [(\. (\d+))?] *)
Definition opt_patch (s : string) : option string * string :=
  match s with
  | String "."%char s' =>
      match digits1 s' with
      | Some (d, r) => (Some d, r)
      | None => (None, s)
      end
  | _ => (None, s)
  end.

(** [([ab](\d+))?] *)
Definition opt_prerelease (s : string) : option (ascii * string) * string :=
  match s with
  | String c s' =>
      if Ascii.eqb c "a" || Ascii.eqb c "b"
      then match digits1 s' with
           | Some (d, r) => (Some (c, d), r)
           | None => (None, s)
           end
      else (None, s)
  | EmptyString => (None, s)
  end.

(** [version_re.match(vstring)] for
    [r'^(\d+) \. (\d+) (\. (\d+))? ([ab](\d+))?$'] under
    [re.VERBOSE | re.ASCII]; the groups 1, 2, 4 and 5-6 of a match.  No digit
    may follow a run of digits in this pattern, so the greedy runs are the
    only ones that can match. *)
Definition version_re_match (vstring : string)
  : option (string * string * option string * option (ascii * string)) :=
  match digits1 vstring with
  | Some (major, String "."%char r1) =>
      match digits1 r1 with
      | Some (minor, r2) =>
          let '(patch, r3) := opt_patch r2 in
          let '(prerelease, r4) := opt_prerelease r3 in
          if at_dollar r4 then Some (major, minor, patch, prerelease) else None
      | None => None
      end
  | _ => None
  end.

(** [int(s)] on a run of decimal digits. *)
Definition int (s : string) : Z :=
  fold_left (λ acc c, 10 * acc + (Z.of_N (N_of_ascii c) - 48))
            (list_ascii_of_string s) 0.

(** The attributes an instance has: [version] is set by [parse] only. *)
Record StrictVersion : Type := {
  version : option (list Z);
  prerelease : option (ascii * Z)
}.

Definition parse (vstring : string) : result StrictVersion :=
  match version_re_match vstring with
  | None => Raise ValueError
  | Some (major, minor, patch, pre) =>
      Ok {| version :=
              Some (match patch with
                    | Some p => [int major; int minor; int p]
                    | None => [int major; int minor; 0]
                    end);
            prerelease :=
              match pre with
              | Some (c, n) => Some (c, int n)
              | None => None
              end |}
  end.

(** [StrictVersion(vstring)]: [Version.__init__] parses [if vstring:] only. *)
Definition new (vstring : string) : result StrictVersion :=
  if truthy (VStr vstring) then parse vstring
  else Ok {| version := None; prerelease := None |}.

End distutils.

(** [str(z)] *)
Definition str_of_int (z : Z) : string :=
  DecimalString.NilZero.string_of_int (Z.to_int z).


(** ** The format-predicate registry *)

(** Modelled from the spec: the format-predicate registry of the validator
    (the [FormatChecker] class of [jsonschema], which is not under [src/]):
    a table from format name to predicate; [register] adds or overwrites an
    entry; [check] returns true for an unknown name and for a value that is
    not a string, and otherwise what the predicate returns. *)
Module FormatChecker.

Definition register (name : string) (predicate : value → bool)
    (reg : gmap string (value → bool)) : gmap string (value → bool) :=
  <[name := predicate]> reg.

Definition check (reg : gmap string (value → bool)) (name : string)
    (v : value) : bool :=
  match reg !! name with
  | None => true
  | Some predicate =>
      match v with
      | VStr _ => predicate v
      | _ => true
      end
  end.

(** The registry after a sequence of registrations, oldest first. *)
Definition registered (seed : gmap string (value → bool))
    (regs : list (string * (value → bool))) : gmap string (value → bool) :=
  fold_left (λ reg r, register r.1 r.2 reg) regs seed.

End FormatChecker.

(** ** [hedwig.Message], as far as the validator reads it *)
Module Message.
Record t : Type := { schema : string; data : value }.
End Message.

(** [for x in l: body], threading the loop's state and stopping at the first
    exception. *)
Fixpoint for_each {A S} (body : A → S → result S) (l : list A) (s : S)
  : result S :=
  match l with
  | [] => Ok s
  | x :: l' => s' ← body x s; for_each body l' s'
  end.

(** [msg_types_found]: a dict from (message type, major version) to a flag,
    in insertion order. *)
Definition found_flags : Type := list ((string * Z) * bool).

(** [k in d] *)
Fixpoint flag_mem (k : string * Z) (d : found_flags) : bool :=
  match d with
  | [] => false
  | (k', _) :: d' => bool_decide (k' = k) || flag_mem k d'
  end.

(** [d[k] = b] *)
Fixpoint flag_set (k : string * Z) (b : bool) (d : found_flags) : found_flags :=
  match d with
  | [] => [(k, b)]
  | (k', b') :: d' =>
      if bool_decide (k' = k) then (k', b) :: d' else (k', b') :: flag_set k b d'
  end.

(** [s.startswith(prefix)]; the prefix must be a [str]. *)
Definition startswith (s : string) (prefix : value) : result bool :=
  match prefix with
  | VStr p => Ok (String.prefix p s)
  | _ => Raise TypeError
  end.

Module MessageValidator.

(** [[0-9a-f]] *)
Definition hex_set : list (ascii * ascii) :=
  [("0"%char, "9"%char); ("a"%char, "f"%char)].

(** [re.compile("^[0-9a-f]{8}-[0-9a-f]{4}-[0-9a-f]{4}-[0-9a-f]{4}-[0-9a-f]{12}$")] *)
Definition _human_uuid_re : list re_item :=
  [Caret; SetRep hex_set 8; Lit "-"; SetRep hex_set 4; Lit "-";
   SetRep hex_set 4; Lit "-"; SetRep hex_set 4; Lit "-"; SetRep hex_set 12;
   Dollar].

Definition check_human_uuid (instance : value) : bool :=
  match instance with
  | VStr s => re_match _human_uuid_re s
  | _ => true
  end.


(** [checker = FormatChecker()] with the ['human-uuid'] registration of
    [check_human_uuid], over the predicates [builtin] the engine ships; the
    registry is the one of [FormatChecker] above, seeded as the specification
    says. *)
Definition checker (builtin : gmap string (value → bool))
  : gmap string (value → bool) :=
  FormatChecker.register "human-uuid" check_human_uuid builtin.

(** [self.schema['id']] *)
Definition schema_root (schema : pydict) : result value :=
  match dict_get schema "id" with
  | Some v => Ok v
  | None => Raise KeyError
  end.

Definition validate (schema : pydict) (message : Message.t) : prog unit :=
  root ← lift (schema_root schema);
  starts ← lift (startswith (Message.schema message) root);
  if negb starts then raise (ValidationError None)
  else
    resolved ← try_except (call (Resolve (Message.schema message)))
                 (λ e, match e with
                       | RefResolutionError => raise (ValidationError None)
                       | _ => raise e
                       end);
    errors ← call (IterErrors (Message.data message) (Some resolved.2));
    match errors with
    | [] => mret tt
    | _ :: _ => raise (ValidationError (Some errors))
    end.

(** The local variables of [check_schema]. *)
Record check_state : Type := {
  errors : list string;
  msg_types_found : found_flags
}.

Definition append_error (st : check_state) (e : string) : check_state :=
  {| errors := errors st ++ [e]; msg_types_found := msg_types_found st |}.

Definition invalid_schema_file : string :=
  "Invalid schema file: expected key 'schemas' with non-empty value".

Definition invalid_definition (msg_type : string) : string :=
  "Invalid definition for message type: '" +:+ msg_type +:+
  "', value must contain a dict of valid versions".

Definition invalid_version (msg_version msg_type : string) : string :=
  "Invalid version '" +:+ msg_version +:+ "' for message type: '" +:+
  msg_type +:+ "'".

Definition schema_not_found (msg_type : string) (major_version : Z) : string :=
  "Schema not found for '" +:+ msg_type +:+ "' v" +:+ str_of_int major_version.

(** [{k: False for k in settings.HEDWIG_MESSAGE_ROUTING}] *)
Definition init_found (HEDWIG_MESSAGE_ROUTING : list (string * Z)) : found_flags :=
  fold_left (λ d k, flag_set k false d) HEDWIG_MESSAGE_ROUTING [].

(** [version.version[0]] *)
Definition version_0 (version : distutils.StrictVersion) : result Z :=
  match distutils.version version with
  | None => Raise AttributeError
  | Some [] => Raise IndexError
  | Some (major :: _) => Ok major
  end.

(** The body of the loop over [versions.items()]. *)
Definition check_version (msg_type : string) (item : string * value)
    (st : check_state) : result check_state :=
  let msg_version := item.1 in
  match (version ← distutils.new msg_version;
         major ← version_0 version;
         mret (if flag_mem (msg_type, major) (msg_types_found st)
               then {| errors := errors st;
                       msg_types_found :=
                         flag_set (msg_type, major) true (msg_types_found st) |}
               else st)) with
  | Raise ValueError => Ok (append_error st (invalid_version msg_version msg_type))
  | r => r
  end.

(** The body of the loop over [schema['schemas'].items()]. *)
Definition check_msg_type (item : string * value) (st : check_state)
  : result check_state :=
  let msg_type := item.1 in
  match item.2 with
  | VDict ((_ :: _) as versions) => for_each (check_version msg_type) versions st
  | _ => Ok (append_error st (invalid_definition msg_type))
  end.

(** The [if not schema.get('schemas') ... else ...] statement. *)
Definition check_schemas (schema : pydict) (st : check_state)
  : result check_state :=
  if negb (truthy (get_or_none schema "schemas"))
  then Ok (append_error st invalid_schema_file)
  else match get_or_none schema "schemas" with
       | VDict schemas => for_each check_msg_type schemas st
       | _ => Raise AttributeError   (* no [items] on this value *)
       end.

(** The errors of the loop over [msg_types_found.items()]. *)
Definition not_found_errors (d : found_flags) : list string :=
  omap (λ kv : (string * Z) * bool,
          if kv.2 then None else Some (schema_not_found kv.1.1 kv.1.2)) d.

(** "custom validation for Hedwig": the statements of [check_schema] that
    follow the call of the parent class. *)
Definition custom_validation (HEDWIG_MESSAGE_ROUTING : list (string * Z))
    (schema : pydict) : result unit :=
  st ← check_schemas schema
         {| errors := []; msg_types_found := init_found HEDWIG_MESSAGE_ROUTING |};
  match errors st ++ not_found_errors (msg_types_found st) with
  | [] => Ok tt
  | (_ :: _) as errs => Raise (SchemaError errs)
  end.

Definition check_schema (HEDWIG_MESSAGE_ROUTING : list (string * Z))
    (schema : pydict) : prog unit :=
  _ ← call (SuperCheckSchema schema);
  lift (custom_validation HEDWIG_MESSAGE_ROUTING schema).

End MessageValidator.

Module FormatValidator.

(** [schema]: the content of [format_schema.yaml], which the instance loads. *)
Definition validate (schema : value) (data : value) : prog unit :=
  errors ← call (IterErrors data None);
  match errors with
  | [] => mret tt
  | _ :: _ => raise (ValidationError (Some errors))
  end.

End FormatValidator.

(** ** The canonical UUID text form, in the words of the specification *)

Definition lower_hex (c : ascii) : bool :=
  let n := N_of_ascii c in
  ((48 <=? n)%N && (n <=? 57)%N) || ((97 <=? n)%N && (n <=? 102)%N).

Definition all_chars (P : ascii -> bool) (s : string) : bool :=
  forallb P (list_ascii_of_string s).

(** A group of exactly [n] lowercase hexadecimal digits. *)
Definition hex_group (n : nat) (g : string) : Prop :=
  String.length g = n ∧ all_chars lower_hex g = true.

(** [8-4-4-4-12]: five groups joined by single hyphens, nothing else. *)
Definition canonical_uuid (s : string) : Prop :=
  ∃ g1 g2 g3 g4 g5,
    hex_group 8 g1 ∧ hex_group 4 g2 ∧ hex_group 4 g3 ∧ hex_group 4 g4 ∧
    hex_group 12 g5 ∧
    s = g1 +:+ "-" +:+ g2 +:+ "-" +:+ g3 +:+ "-" +:+ g4 +:+ "-" +:+ g5.



(** ** The schema check, in the words of the specification *)

(** What the check makes of a version string: it parses and has this major
    version, it is rejected as malformed ([ValueError]), or the instance is
    left without a [version] attribute. *)
Inductive verdict : Type :=
| Parsed (major : Z)
| Malformed
| NoVersion.

#[global] Instance verdict_eq_dec : EqDecision verdict.
Proof. solve_decision. Defined.

Definition classify (msg_version : string) : verdict :=
  if String.eqb msg_version "" then NoVersion
  else match distutils.version_re_match msg_version with
       | Some (major, _, _, _) => Parsed (distutils.int major)
       | None => Malformed
       end.

Definition is_malformed (msg_version : string) : bool :=
  match classify msg_version with Malformed => true | _ => false end.

Definition is_no_version (msg_version : string) : bool :=
  match classify msg_version with NoVersion => true | _ => false end.

(** A message type's value that is a non-empty mapping. *)
Definition versions_of (v : value) : option (list (string * value)) :=
  match v with
  | VDict ((_ :: _) as versions) => Some versions
  | _ => None
  end.

(** The (message type, version string) entries of the well-shaped message
    types of a document. *)
Definition entries (schemas : list (string * value)) : list (string * string) :=
  flat_map (λ item : string * value,
              match versions_of item.2 with
              | Some versions => map (λ v : string * value, (item.1, v.1)) versions
              | None => []
              end) schemas.

(** Some entry of type [k.1] parses to the major version [k.2]. *)
Definition covered (es : list (string * string)) (k : string * Z) : bool :=
  existsb (λ e : string * string,
             bool_decide (e.1 = k.1) && bool_decide (classify e.2 = Parsed k.2)) es.

(** The keys of [msg_types_found], in order. *)
Definition routing_keys (HEDWIG_MESSAGE_ROUTING : list (string * Z))
  : list (string * Z) :=
  (MessageValidator.init_found HEDWIG_MESSAGE_ROUTING).*1.

(** S: the message types whose value is not a non-empty mapping. *)
Definition shape_count (schemas : list (string * value)) : nat :=
  length (filter (λ item : string * value, versions_of item.2 = None) schemas).

(** M: the entries whose version string is malformed. *)
Definition malformed_count (schemas : list (string * value)) : nat :=
  length (filter (λ e : string * string, is_malformed e.2 = true) (entries schemas)).

(** K: the required pairs that no entry covers. *)
Definition missing_count (HEDWIG_MESSAGE_ROUTING : list (string * Z))
    (schemas : list (string * value)) : nat :=
  length (filter (λ k, covered (entries schemas) k = false)
                 (routing_keys HEDWIG_MESSAGE_ROUTING)).

(** The [schemas] key is missing, [None] or empty. *)
Definition lacks_schemas (schema : pydict) : Prop :=
  dict_get schema "schemas" = None ∨
  dict_get schema "schemas" = Some VNone ∨
  dict_get schema "schemas" = Some (VDict []).

(** An engine that accepts every document and reports no violation. *)
Definition permissive : handler unit := λ X c w,
  match c in libcall X return result X * unit with
  | Resolve ref => (Ok (ref, VDict []), w)
  | IterErrors _ _ => (Ok [], w)
  | SuperCheckSchema _ => (Ok tt, w)
  end.

(** *** What the loops of the check compute *)

(** [if k in d: d[k] = True] *)
Definition mark (k : string * Z) (d : found_flags) : found_flags :=
  if flag_mem k d then flag_set k true d else d.

Definition marks (ks : list (string * Z)) (d : found_flags) : found_flags :=
  fold_left (λ d k, mark k d) ks d.

(** The errors and the covered pairs of one message type's versions. *)
Definition version_errors (msg_type : string) (versions : list (string * value))
  : list string :=
  omap (λ item : string * value,
          if is_malformed item.1
          then Some (MessageValidator.invalid_version item.1 msg_type)
          else None) versions.

Definition version_keys (msg_type : string) (versions : list (string * value))
  : list (string * Z) :=
  omap (λ item : string * value,
          match classify item.1 with
          | Parsed major => Some (msg_type, major)
          | _ => None
          end) versions.

Definition type_errors (item : string * value) : list string :=
  match versions_of item.2 with
  | Some versions => version_errors item.1 versions
  | None => [MessageValidator.invalid_definition item.1]
  end.

Definition type_keys (item : string * value) : list (string * Z) :=
  match versions_of item.2 with
  | Some versions => version_keys item.1 versions
  | None => []
  end.

(** Some version string of a well-shaped message type is empty, which leaves
    the parsed instance without a [version]. *)
Definition type_no_version (item : string * value) : bool :=
  match versions_of item.2 with
  | Some versions => existsb (λ v : string * value, is_no_version v.1) versions
  | None => false
  end.

(** The records of the first loop, and of the loop over the flags. *)
Definition first_pass_errors (schemas : list (string * value)) : list string :=
  flat_map type_errors schemas.

Definition coverage_errors (HEDWIG_MESSAGE_ROUTING : list (string * Z))
    (schemas : list (string * value)) : list string :=
  map (λ k : string * Z, MessageValidator.schema_not_found k.1 k.2)
      (filter (λ k, covered (entries schemas) k = false)
              (routing_keys HEDWIG_MESSAGE_ROUTING)).

(** The outcome of raising [SchemaError(errors)] [if errors]. *)
Definition raise_if_any (errs : list string) : result unit :=
  match errs with
  | [] => Ok tt
  | _ :: _ => Raise (SchemaError errs)
  end.

(** The parent class accepts the document: the call returns. *)
Definition super_passes {W} (h : handler W) (schema : pydict) (w : W) : Prop :=
  (h _ (SuperCheckSchema schema) w).1 = Ok tt.

Definition is_parsed (msg_version : string) : bool :=
  match classify msg_version with Parsed _ => true | _ => false end.

(** A document part whose shape is well-formed and all of whose version
    strings parse: some message type, and under each a non-empty mapping. *)
Definition well_formed (schemas : list (string * value)) : bool :=
  match schemas with
  | [] => false
  | _ :: _ =>
      forallb (λ item : string * value,
                 match versions_of item.2 with
                 | Some versions =>
                     forallb (λ v : string * value, is_parsed v.1) versions
                 | None => false
                 end) schemas
  end.

(** [raise ValidationError(errors)] [if errors]. *)
Definition raise_if_violations (errs : list violation) : result unit :=
  match errs with
  | [] => Ok tt
  | _ :: _ => Raise (ValidationError (Some errs))
  end.

(** The validator's document, the state of its format registry and a
    message, as an engine may keep them in its world. *)
Record inputs : Type := {
  doc : pydict;
  registry : gmap string (value → bool);
  msg : Message.t
}.

(** Three violations of a sub-schema that requires three properties. *)
Definition three_violations : list violation :=
  [Violation [] "required" "'id' is a required property";
   Violation [] "required" "'name' is a required property";
   Violation [] "required" "'email' is a required property"].

(** An engine over a world that also counts the calls made: it resolves a
    reference to the document itself and reports the three violations for an
    empty payload. *)
Definition counting : handler (inputs * nat) := λ X c w,
  match c in libcall X return result X * (inputs * nat) with
  | Resolve ref => (Ok (ref, VDict (doc w.1)), (w.1, S w.2))
  | IterErrors instance _ =>
      (Ok (match instance with
           | VDict [] => three_violations
           | _ => []
           end), (w.1, S w.2))
  | SuperCheckSchema _ => (Ok tt, (w.1, S w.2))
  end.

(** An engine in whose document no reference resolves. *)
Definition dangling : handler unit := λ X c w,
  match c in libcall X return result X * unit with
  | Resolve ref => (Raise RefResolutionError, w)
  | IterErrors _ _ => (Ok [], w)
  | SuperCheckSchema _ => (Ok tt, w)
  end.

Definition sample_uuid : string := "123e4567-e89b-12d3-a456-426614174000".

Definition doc_empty_version : pydict :=
  [("id", VStr "https://hedwig.example/schema");
   ("schemas", VDict [("trip_created", VDict [("", VDict [])])])].

Definition doc_schemas_list : pydict :=
  [("id", VStr "https://hedwig.example/schema");
   ("schemas", VList [VDict []])].

Definition doc_sample : pydict :=
  [("id", VStr "https://hedwig.example/schema");
   ("schemas", VDict [("trip_created", VDict [("1.0", VDict [])])])].

Definition doc_sample_extended : pydict :=
  [("id", VStr "https://hedwig.example/schema");
   ("schemas", VDict [("trip_created", VDict [("1.0", VDict []); ("2.3", VDict [])]);
                      ("user_updated", VDict [("1.1", VDict [])])])].

Definition doc_bad_shape : pydict :=
  [("id", VStr "https://hedwig.example/schema");
   ("schemas", VDict [("trip_created", VDict [("1.0", VDict []); ("one", VDict [])]);
                      ("user_updated", VInt 3)])].

Definition doc_bad_shape_then_empty_version : pydict :=
  [("id", VStr "https://hedwig.example/schema");
   ("schemas", VDict [("user_updated", VInt 3);
                      ("trip_created", VDict [("", VDict [])])])].

Definition doc_bad_shape_only : pydict :=
  [("id", VStr "https://hedwig.example/schema");
   ("schemas", VDict [("user_updated", VInt 3);
                      ("trip_created", VDict [("1.0", VDict [])])])].

Definition sample_message : Message.t :=
  {| Message.schema := "https://hedwig.example/schema#/schemas/trip_created/1.0";
     Message.data := VDict [] |}.

Definition sample_inputs : inputs :=
  {| doc := doc_sample; registry := MessageValidator.checker ∅;
     msg := sample_message |}.

Definition foreign_message : Message.t :=
  {| Message.schema := "https://other.example/schema#/schemas/trip_created/1.0";
     Message.data := VNone |}.

(** A message type, and a document, with every sub-schema replaced by its
    image under [f]. *)
Definition map_type_definitions (f : value → value) (item : string * value)
  : string * value :=
  (item.1,
   match item.2 with
   | VDict versions => VDict (map (λ v : string * value, (v.1, f v.2)) versions)
   | other => other
   end).

Definition map_definitions (f : value → value) (schemas : list (string * value))
  : list (string * value) :=
  map (map_type_definitions f) schemas.

(** The characters an accepted identifier is made of. *)
Definition uuid_char (c : ascii) : bool :=
  lower_hex c || Ascii.eqb c "-" || Ascii.eqb c newline.

(** An engine that rejects every document. *)
Definition rejecting : handler unit := λ X c w,
  match c in libcall X return result X * unit with
  | Resolve ref => (Raise RefResolutionError, w)
  | IterErrors _ _ => (Raise RefResolutionError, w)
  | SuperCheckSchema _ => (Raise (SchemaError ["5 is not of type 'string'"]), w)
  end.

(** An engine that resolves every reference and then fails on a reference
    nested in the sub-schema. *)
Definition nested_dangling : handler unit := λ X c w,
  match c in libcall X return result X * unit with
  | Resolve ref => (Ok (ref, VDict []), w)
  | IterErrors _ _ => (Raise RefResolutionError, w)
  | SuperCheckSchema _ => (Ok tt, w)
  end.

Import MessageValidator.

(** The state after [if k in msg_types_found: msg_types_found[k] = True]. *)
Definition mark_state (k : string * Z) (st : check_state) : check_state :=
  {| errors := errors st; msg_types_found := mark k (msg_types_found st) |}.

(** A flag, raised when its key satisfies [P]. *)
Definition or_flag (P : string * Z → bool) (kv : (string * Z) * bool)
  : (string * Z) * bool := (kv.1, kv.2 || P kv.1).


(** * Properties *)

(** ** Strings *)

Lemma append_cons (c : ascii) (s t : string) :
  String c s +:+ t = String c (s +:+ t).
Proof. reflexivity. Qed.

Lemma append_nil_l (s : string) : "" +:+ s = s.
Proof. reflexivity. Qed.

Lemma append_nil_r (s : string) : s +:+ "" = s.
Proof. induction s as [|c s IH]; [done | by rewrite append_cons, IH]. Qed.

Lemma append_assoc (s1 s2 s3 : string) : (s1 +:+ s2) +:+ s3 = s1 +:+ (s2 +:+ s3).
Proof. induction s1 as [|c s1 IH]; [done | by rewrite !append_cons, IH]. Qed.

Lemma length_append (s1 s2 : string) :
  String.length (s1 +:+ s2) = (String.length s1 + String.length s2)%nat.
Proof. induction s1 as [|c s1 IH]; [done | rewrite append_cons; simpl; by rewrite IH]. Qed.

(** ** The UUID pattern *)

Lemma in_hex_set (c : ascii) : in_set MessageValidator.hex_set c = lower_hex c.
Proof. unfold in_set, lower_hex. simpl. by rewrite orb_false_r. Qed.

(** Taking [n] characters of the set succeeds exactly on a group of [n]. *)
Lemma take_set_hex_group (n : nat) (s rest : string) :
  take_set MessageValidator.hex_set n s = Some rest ↔
  ∃ g, hex_group n g ∧ s = g +:+ rest.
Proof.
  revert s. induction n as [|n IH]; intros s; cbn [take_set].
  - split.
    + intros [= ->]. by exists ""%string.
    + intros (g & [Hlen _] & ->). destruct g; [done | discriminate].
  - destruct s as [|c s].
    + split; [done |]. intros (g & [Hlen _] & Hs). destruct g; discriminate.
    + rewrite in_hex_set. destruct (lower_hex c) eqn:Hc.
      * rewrite IH. split.
        -- intros (g & [Hlen Hall] & ->). exists (String c g).
           split; [split |]; [simpl; by rewrite Hlen | | done].
           unfold all_chars in *. simpl. by rewrite Hc.
        -- intros (g & [Hlen Hall] & Hs). destruct g as [|c' g]; [discriminate |].
           rewrite append_cons in Hs. injection Hs as <- ->. unfold all_chars in Hall.
           simpl in Hall. apply andb_true_iff in Hall as [_ Hall].
           exists g. split; [split |]; [simpl in Hlen; lia | done | done].
      * split; [done |]. intros (g & [Hlen Hall] & Hs).
        destruct g as [|c' g]; [discriminate |]. rewrite append_cons in Hs.
        injection Hs as <- ->. unfold all_chars in Hall. simpl in Hall.
        rewrite Hc in Hall. discriminate.
Qed.

Lemma at_dollar_spec (s : string) :
  at_dollar s = true ↔ s = ""%string ∨ s = String newline "".
Proof.
  destruct s as [|c [|c' s]]; cbn.
  - split; [by left | done].
  - rewrite Ascii.eqb_eq. split.
    + intros ->. by right.
    + intros [? | [= ->]]; [discriminate | done].
  - split; [done | intros [? | ?]; discriminate].
Qed.

Lemma lit_step (c : ascii) (pos : nat) (p : list re_item) (s : string) :
  match_items pos (Lit c :: p) s = true ↔
  ∃ s', s = String c s' ∧ match_items (S pos) p s' = true.
Proof.
  cbn [match_items]. destruct s as [|c' s].
  - split; [done | intros (s' & ? & _); discriminate].
  - rewrite andb_true_iff, Ascii.eqb_eq. split.
    + intros [-> Hm]. by exists s.
    + intros (s' & [= -> ->] & Hm). done.
Qed.

Lemma set_step (n pos : nat) (p : list re_item) (s : string) :
  match_items pos (SetRep MessageValidator.hex_set n :: p) s = true ↔
  ∃ g s', hex_group n g ∧ s = g +:+ s' ∧ match_items (pos + n) p s' = true.
Proof.
  simpl. destruct (take_set _ n s) as [s'|] eqn:Ht.
  - apply take_set_hex_group in Ht as (g & Hg & ->). split.
    + intros Hm. by exists g, s'.
    + intros (g' & s'' & Hg' & Heq & Hm).
      assert (take_set MessageValidator.hex_set n (g' +:+ s'') = Some s'') as H1
        by (apply take_set_hex_group; eauto).
      assert (take_set MessageValidator.hex_set n (g +:+ s') = Some s') as H2
        by (apply take_set_hex_group; eauto).
      rewrite Heq in H2. congruence.
  - split; [done |]. intros (g & s' & Hg & -> & _).
    assert (take_set MessageValidator.hex_set n (g +:+ s') = Some s') as H1
      by (apply take_set_hex_group; eauto).
    congruence.
Qed.

(** What [_human_uuid_re] matches: the canonical form, or the canonical form
    followed by one newline. *)
Theorem human_uuid_re_matches (s : string) :
  re_match MessageValidator._human_uuid_re s = true ↔
  canonical_uuid s ∨ ∃ u, canonical_uuid u ∧ s = u +:+ String newline "".
Proof.
  unfold re_match, MessageValidator._human_uuid_re.
  change (match_items 0 (Caret :: ?p) s) with (match_items 0 p s).
  split.
  - intros H.
    apply set_step in H as (g1 & s1 & Hg1 & -> & H).
    apply lit_step in H as (s1' & -> & H).
    apply set_step in H as (g2 & s2 & Hg2 & -> & H).
    apply lit_step in H as (s2' & -> & H).
    apply set_step in H as (g3 & s3 & Hg3 & -> & H).
    apply lit_step in H as (s3' & -> & H).
    apply set_step in H as (g4 & s4 & Hg4 & -> & H).
    apply lit_step in H as (s4' & -> & H).
    apply set_step in H as (g5 & s5 & Hg5 & -> & H).
    simpl in H. rewrite andb_true_r in H.
    apply at_dollar_spec in H as [-> | ->].
    + left. exists g1, g2, g3, g4, g5. rewrite append_nil_r.
      exact (conj Hg1 (conj Hg2 (conj Hg3 (conj Hg4 (conj Hg5 eq_refl))))).
    + right. exists (g1 +:+ "-" +:+ g2 +:+ "-" +:+ g3 +:+ "-" +:+ g4 +:+ "-" +:+ g5).
      split.
      { exists g1, g2, g3, g4, g5.
        exact (conj Hg1 (conj Hg2 (conj Hg3 (conj Hg4 (conj Hg5 eq_refl))))). }
      by rewrite !append_assoc.
  - assert (∀ r, at_dollar r = true → ∀ u, canonical_uuid u →
              match_items 0 (tail MessageValidator._human_uuid_re) (u +:+ r) = true) as Hgen.
    { intros r Hr u (g1 & g2 & g3 & g4 & g5 & H1 & H2 & H3 & H4 & H5 & ->).
      unfold MessageValidator._human_uuid_re, tail. rewrite !append_assoc.
      apply set_step. exists g1, (("-" +:+ g2 +:+ "-" +:+ g3 +:+ "-" +:+ g4 +:+ "-" +:+ g5) +:+ r).
      split; [done |]. split; [by rewrite !append_assoc |].
      rewrite !append_assoc. apply lit_step. eexists. split; [reflexivity |].
      apply set_step. eexists g2, _. split; [done |]. split; [reflexivity |].
      apply lit_step. eexists. split; [reflexivity |].
      apply set_step. eexists g3, _. split; [done |]. split; [reflexivity |].
      apply lit_step. eexists. split; [reflexivity |].
      apply set_step. eexists g4, _. split; [done |]. split; [reflexivity |].
      apply lit_step. eexists. split; [reflexivity |].
      apply set_step. eexists g5, _. split; [done |]. split; [reflexivity |].
      simpl. by rewrite Hr. }
    intros [Hu | (u & Hu & ->)].
    + rewrite <- (append_nil_r s). by apply Hgen.
    + by apply Hgen.
Qed.

(** ** The schema check *)

Lemma check_version_classify (msg_type : string) (item : string * value)
    (st : check_state) :
  check_version msg_type item st =
  match classify item.1 with
  | Parsed major => Ok (mark_state (msg_type, major) st)
  | Malformed => Ok (append_error st (invalid_version item.1 msg_type))
  | NoVersion => Raise AttributeError
  end.
Proof.
  unfold check_version, classify, distutils.new, truthy.
  destruct (String.eqb item.1 "") eqn:He; [reflexivity |].
  cbn [negb]. unfold distutils.parse.
  destruct (distutils.version_re_match item.1) as [[[[major minor] patch] pre]|];
    [| reflexivity].
  unfold mark_state, mark. destruct st as [errs flags].
  destruct patch; cbn; destruct (flag_mem _ flags); reflexivity.
Qed.

Lemma version_errors_cons (msg_type : string) (item : string * value)
    (versions : list (string * value)) :
  version_errors msg_type (item :: versions) =
  (if is_malformed item.1 then [invalid_version item.1 msg_type] else [])
  ++ version_errors msg_type versions.
Proof.
  unfold version_errors. cbn [omap list_omap].
  by destruct (is_malformed item.1).
Qed.

Lemma version_keys_cons (msg_type : string) (item : string * value)
    (versions : list (string * value)) :
  version_keys msg_type (item :: versions) =
  match classify item.1 with
  | Parsed major => [(msg_type, major)]
  | _ => []
  end ++ version_keys msg_type versions.
Proof.
  unfold version_keys. cbn [omap list_omap].
  by destruct (classify item.1).
Qed.

Lemma for_each_check_version (msg_type : string) (versions : list (string * value))
    (st : check_state) :
  for_each (check_version msg_type) versions st =
  if existsb (λ v : string * value, is_no_version v.1) versions
  then Raise AttributeError
  else Ok {| errors := errors st ++ version_errors msg_type versions;
             msg_types_found :=
               marks (version_keys msg_type versions) (msg_types_found st) |}.
Proof.
  revert st. induction versions as [|item versions IH]; intros st.
  - cbn. rewrite app_nil_r. by destruct st.
  - cbn [for_each existsb].
    rewrite check_version_classify, version_errors_cons, version_keys_cons.
    unfold is_no_version at 1, is_malformed.
    destruct (classify item.1) eqn:Hc; cbn [mbind result_bind orb app].
    + rewrite IH. by destruct (existsb _ versions).
    + rewrite IH. destruct (existsb _ versions); [done |].
      cbn [append_error errors msg_types_found]. by rewrite <- app_assoc.
    + reflexivity.
Qed.

Lemma for_each_check_msg_type (schemas : list (string * value)) (st : check_state) :
  for_each check_msg_type schemas st =
  if existsb type_no_version schemas
  then Raise AttributeError
  else Ok {| errors := errors st ++ first_pass_errors schemas;
             msg_types_found :=
               marks (flat_map type_keys schemas) (msg_types_found st) |}.
Proof.
  revert st. induction schemas as [|item schemas IH]; intros st.
  - cbn. rewrite app_nil_r. by destruct st.
  - cbn [for_each existsb first_pass_errors flat_map].
    assert (check_msg_type item st =
            match versions_of item.2 with
            | Some versions => for_each (check_version item.1) versions st
            | None => Ok (append_error st (invalid_definition item.1))
            end) as ->.
    { unfold check_msg_type, versions_of.
      destruct item.2 as [| | | | | |[|v d]]; reflexivity. }
    unfold type_no_version at 1, type_errors at 1, type_keys at 1.
    destruct (versions_of item.2) as [versions|].
    + rewrite for_each_check_version.
      destruct (existsb _ versions); [reflexivity |].
      cbn. rewrite IH. destruct (existsb type_no_version schemas); [reflexivity |].
      cbn. unfold marks. by rewrite fold_left_app, <- app_assoc.
    + cbn. rewrite IH. destruct (existsb type_no_version schemas); [reflexivity |].
      cbn. by rewrite <- app_assoc.
Qed.

(** *** The found-flags *)

Lemma fmap_ext_in {A B} (f g : A → B) (l : list A) :
  (∀ x, x ∈ l → f x = g x) → f <$> l = g <$> l.
Proof. intros H. apply Forall_fmap_ext_1, Forall_forall, H. Qed.

Lemma flag_mem_elem (k : string * Z) (d : found_flags) :
  flag_mem k d = bool_decide (k ∈ d.*1).
Proof.
  induction d as [|[k' b] d IH]; cbn [flag_mem fmap list_fmap].
  - symmetry. apply bool_decide_eq_false. by intros ?%elem_of_nil.
  - rewrite IH. destruct (decide (k' = k)) as [->|Hne].
    + rewrite bool_decide_eq_true_2 by done. symmetry.
      apply bool_decide_eq_true. cbn. left.
    + rewrite bool_decide_eq_false_2 by done. cbn [orb].
      apply bool_decide_ext. cbn. rewrite elem_of_cons. intuition congruence.
Qed.

Lemma or_flag_keys (P : string * Z → bool) (d : found_flags) :
  (or_flag P <$> d).*1 = d.*1.
Proof. rewrite <- list_fmap_compose. by apply fmap_ext_in. Qed.

Lemma or_flag_absent (k : string * Z) (d : found_flags) :
  k ∉ d.*1 → or_flag (λ k', bool_decide (k' = k)) <$> d = d.
Proof.
  intros Hk. rewrite <- (list_fmap_id d) at 2. apply fmap_ext_in.
  intros [k' b] Hin. unfold or_flag. cbn.
  rewrite bool_decide_eq_false_2, orb_false_r; [done |].
  intros ->. apply Hk. apply list_elem_of_fmap. by exists (k, b).
Qed.

Lemma mark_or_flag (k : string * Z) (d : found_flags) :
  NoDup d.*1 → mark k d = or_flag (λ k', bool_decide (k' = k)) <$> d.
Proof.
  unfold mark. induction d as [|[k' b] d IH]; [done |].
  cbn [fmap list_fmap]. intros [Hk' Hnd]%NoDup_cons.
  cbn [flag_mem flag_set]. destruct (decide (k' = k)) as [->|Hne].
  - rewrite !bool_decide_eq_true_2 by done. cbn [orb].
    fold (fmap (M:=list) (or_flag (λ k', bool_decide (k' = k))) d).
    rewrite or_flag_absent by done. unfold or_flag. cbn.
    by rewrite bool_decide_eq_true_2, orb_true_r.
  - rewrite !bool_decide_eq_false_2 by done. cbn [orb].
    fold (fmap (M:=list) (or_flag (λ k', bool_decide (k' = k))) d).
    rewrite <- IH by done. unfold or_flag at 1. cbn.
    rewrite bool_decide_eq_false_2, orb_false_r by done.
    by destruct (flag_mem k d).
Qed.

Lemma marks_or_flag (ks : list (string * Z)) (d : found_flags) :
  NoDup d.*1 → marks ks d = or_flag (λ k', bool_decide (k' ∈ ks)) <$> d.
Proof.
  revert d. induction ks as [|k ks IH]; intros d Hnd.
  - cbn. rewrite <- (list_fmap_id d) at 1. apply fmap_ext_in.
    intros [k' b] _. unfold or_flag. cbn.
    rewrite bool_decide_eq_false_2, orb_false_r; [done | by intros ?%elem_of_nil].
  - change (marks (k :: ks) d) with (marks ks (mark k d)).
    rewrite mark_or_flag by done. rewrite IH by (by rewrite or_flag_keys).
    rewrite <- list_fmap_compose. apply fmap_ext_in. intros [k' b] _.
    unfold or_flag. cbn. f_equal. rewrite <- orb_assoc. f_equal.
    destruct (decide (k' = k)) as [->|Hne].
    + rewrite (bool_decide_eq_true_2 (k = k)) by done. symmetry.
      apply bool_decide_eq_true. left.
    + rewrite bool_decide_eq_false_2 by done. cbn.
      apply bool_decide_ext. rewrite elem_of_cons. intuition congruence.
Qed.

(** Initially every flag is false and the keys are distinct. *)
Lemma flag_set_false_fresh (k : string * Z) (ks : list (string * Z)) :
  flag_set k false ((λ k, (k, false)) <$> ks) =
  (λ k, (k, false)) <$> (if bool_decide (k ∈ ks) then ks else ks ++ [k]).
Proof.
  induction ks as [|k' ks IH]; [done |].
  cbn [fmap list_fmap flag_set]. destruct (decide (k' = k)) as [->|Hne].
  - rewrite (bool_decide_eq_true_2 (k = k)) by done.
    rewrite (bool_decide_eq_true_2 (k ∈ k :: ks)) by left. done.
  - rewrite bool_decide_eq_false_2 by done.
    fold (fmap (M:=list) (λ k : string * Z, (k, false)) ks). rewrite IH.
    rewrite (bool_decide_ext (k ∈ k' :: ks) (k ∈ ks))
      by (rewrite elem_of_cons; intuition congruence).
    by destruct (bool_decide (k ∈ ks)).
Qed.

Lemma init_found_from (R ks : list (string * Z)) :
  NoDup ks →
  ∃ ks', fold_left (λ d k, flag_set k false d) R ((λ k, (k, false)) <$> ks)
         = (λ k, (k, false)) <$> ks'
       ∧ NoDup ks' ∧ (∀ k, k ∈ ks' ↔ k ∈ ks ∨ k ∈ R)
       ∧ (NoDup (ks ++ R) → ks' = ks ++ R).
Proof.
  revert ks. induction R as [|k R IH]; intros ks Hnd.
  - exists ks. rewrite app_nil_r. split_and!; [done | done | | done].
    intros k. rewrite elem_of_nil. intuition.
  - cbn [fold_left]. rewrite flag_set_false_fresh.
    destruct (decide (k ∈ ks)) as [Hin|Hout].
    + rewrite bool_decide_eq_true_2 by done.
      destruct (IH ks Hnd) as (ks' & Heq & Hnd' & Hel & Hex).
      exists ks'. split_and!; [done | done | |].
      * intros k0. rewrite Hel, elem_of_cons. intuition congruence.
      * intros Hnd2. exfalso. apply NoDup_app in Hnd2 as (_ & Hdis & _).
        apply (Hdis k Hin). left.
    + rewrite bool_decide_eq_false_2 by done.
      assert (NoDup (ks ++ [k])) as Hnd1.
      { apply NoDup_app. split_and!; [done | | apply NoDup_singleton].
        intros x Hx ->%list_elem_of_singleton. done. }
      destruct (IH _ Hnd1) as (ks' & Heq & Hnd' & Hel & Hex).
      exists ks'. split_and!; [done | done | |].
      * intros k0. rewrite Hel, elem_of_app, list_elem_of_singleton, elem_of_cons.
        intuition.
      * intros Hnd2. rewrite <- app_assoc in Hex. by apply Hex.
Qed.

Lemma false_flags_keys (ks : list (string * Z)) :
  ((λ k : string * Z, (k, false)) <$> ks).*1 = ks.
Proof.
  rewrite <- list_fmap_compose. rewrite <- (list_fmap_id ks) at 2.
  by apply fmap_ext_in.
Qed.

Lemma init_found_keys (R : list (string * Z)) :
  init_found R = (λ k, (k, false)) <$> routing_keys R.
Proof.
  unfold routing_keys, init_found.
  destruct (init_found_from R [] (NoDup_nil_2)) as (ks' & Heq & _).
  cbn in Heq. by rewrite Heq, false_flags_keys.
Qed.

Lemma routing_keys_NoDup (R : list (string * Z)) : NoDup (routing_keys R).
Proof.
  unfold routing_keys, init_found.
  destruct (init_found_from R [] (NoDup_nil_2)) as (ks' & Heq & Hnd & _).
  cbn in Heq. by rewrite Heq, false_flags_keys.
Qed.

Lemma routing_keys_elem (R : list (string * Z)) (k : string * Z) :
  k ∈ routing_keys R ↔ k ∈ R.
Proof.
  unfold routing_keys, init_found.
  destruct (init_found_from R [] (NoDup_nil_2)) as (ks' & Heq & Hnd & Hel & _).
  cbn in Heq. rewrite Heq, false_flags_keys, Hel.
  rewrite elem_of_nil. intuition.
Qed.

Lemma routing_keys_id (R : list (string * Z)) : NoDup R → routing_keys R = R.
Proof.
  intros HR. unfold routing_keys, init_found.
  destruct (init_found_from R [] (NoDup_nil_2)) as (ks' & Heq & Hnd & Hel & Hex).
  cbn in Heq. rewrite Heq, false_flags_keys. by apply Hex.
Qed.

Lemma not_found_marks (ks : list (string * Z)) (R : list (string * Z)) :
  not_found_errors (marks ks (init_found R)) =
  (λ k : string * Z, schema_not_found k.1 k.2)
    <$> filter (λ k, k ∉ ks) (routing_keys R).
Proof.
  rewrite init_found_keys.
  rewrite marks_or_flag by (rewrite false_flags_keys; apply routing_keys_NoDup).
  unfold not_found_errors.
  induction (routing_keys R) as [|k l IH]; [done |].
  cbn [fmap list_fmap omap list_omap]. rewrite filter_cons.
  unfold or_flag at 1. cbn [fst snd orb].
  destruct (decide (k ∈ ks)) as [Hin|Hout].
  - rewrite bool_decide_eq_true_2 by done.
    rewrite decide_False by (intros H; by apply H). apply IH.
  - rewrite bool_decide_eq_false_2 by done.
    rewrite decide_True by done. cbn [fmap list_fmap]. f_equal. apply IH.
Qed.

Lemma elem_of_entries (schemas : list (string * value)) (e : string * string) :
  e ∈ entries schemas ↔
  ∃ item versions v, item ∈ schemas ∧ versions_of item.2 = Some versions ∧
                     v ∈ versions ∧ e = (item.1, v.1).
Proof.
  unfold entries. rewrite list_elem_of_In, in_flat_map. split.
  - intros (item & Hitem%list_elem_of_In & He).
    destruct (versions_of item.2) as [versions|] eqn:Hv; [| by destruct He].
    apply list_elem_of_In, (list_elem_of_fmap (λ v : string * value, (item.1, v.1)))
      in He as (v & -> & Hin).
    by exists item, versions, v.
  - intros (item & versions & v & Hitem & Hv & Hin & ->).
    exists item. split; [by apply list_elem_of_In |]. rewrite Hv.
    apply list_elem_of_In, (list_elem_of_fmap (λ v : string * value, (item.1, v.1))).
    by exists v.
Qed.

Lemma elem_of_type_keys (schemas : list (string * value)) (k : string * Z) :
  k ∈ flat_map type_keys schemas ↔ covered (entries schemas) k = true.
Proof.
  unfold covered. rewrite existsb_exists, list_elem_of_In, in_flat_map. split.
  - intros (item & Hitem%list_elem_of_In & Hk). unfold type_keys in Hk.
    destruct (versions_of item.2) as [versions|] eqn:Hv; [| by destruct Hk].
    apply list_elem_of_In, list_elem_of_omap in Hk as (v & Hin & Hc).
    destruct (classify v.1) as [major| |] eqn:Hcl; try discriminate.
    injection Hc as <-. exists (item.1, v.1). split.
    + apply list_elem_of_In, elem_of_entries. by exists item, versions, v.
    + cbn. by rewrite !bool_decide_eq_true_2.
  - intros (e & He%list_elem_of_In%elem_of_entries & Hb).
    destruct He as (item & versions & v & Hitem & Hv & Hin & ->).
    apply andb_true_iff in Hb as [H1%bool_decide_eq_true H2%bool_decide_eq_true].
    cbn in H1, H2. exists item. split; [by apply list_elem_of_In |].
    unfold type_keys. rewrite Hv. apply list_elem_of_In, list_elem_of_omap.
    exists v. split; [done |]. rewrite H2. destruct k as [t m]. cbn in *. by subst.
Qed.

Lemma filter_ext_in {A} (P Q : A → Prop) `{∀ x, Decision (P x)}
    `{∀ x, Decision (Q x)} (l : list A) :
  (∀ x, x ∈ l → P x ↔ Q x) → filter P l = filter Q l.
Proof.
  induction l as [|x l IH]; intros Hext; [done |].
  rewrite !filter_cons.
  assert (P x ↔ Q x) as Hx by (apply Hext; left).
  rewrite IH by (intros y Hy; apply Hext; by right).
  destruct (decide (P x)), (decide (Q x)); intuition.
Qed.

Lemma coverage_errors_marks (R : list (string * Z)) (schemas : list (string * value)) :
  not_found_errors (marks (flat_map type_keys schemas) (init_found R)) =
  coverage_errors R schemas.
Proof.
  rewrite not_found_marks. unfold coverage_errors. f_equal.
  apply filter_ext_in. intros k _. rewrite elem_of_type_keys.
  by destruct (covered (entries schemas) k).
Qed.

Lemma coverage_errors_nil (R : list (string * Z)) :
  coverage_errors R [] = (λ k : string * Z, schema_not_found k.1 k.2) <$> routing_keys R.
Proof.
  unfold coverage_errors. f_equal. cbn.
  induction (routing_keys R) as [|k l IH]; [done |].
  rewrite filter_cons, decide_True by done. by f_equal.
Qed.

(** The statements of [check_schema] after the parent's check, as one
    expression. *)
Lemma custom_validation_eq (R : list (string * Z)) (schema : pydict) :
  custom_validation R schema =
  if truthy (get_or_none schema "schemas")
  then match get_or_none schema "schemas" with
       | VDict schemas =>
           if existsb type_no_version schemas then Raise AttributeError
           else raise_if_any (first_pass_errors schemas ++ coverage_errors R schemas)
       | _ => Raise AttributeError
       end
  else Raise (SchemaError (invalid_schema_file :: coverage_errors R [])).
Proof.
  unfold custom_validation, check_schemas.
  destruct (truthy (get_or_none schema "schemas")) eqn:Ht; cbn [negb].
  - destruct (get_or_none schema "schemas") as [| | | | | |schemas]; try reflexivity.
    rewrite for_each_check_msg_type.
    destruct (existsb type_no_version schemas); [reflexivity |].
    cbn [mbind result_bind errors msg_types_found app].
    rewrite coverage_errors_marks.
    by destruct (first_pass_errors schemas ++ coverage_errors R schemas).
  - cbn [mbind result_bind append_error errors msg_types_found app].
    change (marks [] (init_found R)) with (init_found R).
    rewrite <- (coverage_errors_marks R []). reflexivity.
Qed.

Lemma run_check_schema {W} (h : handler W) (R : list (string * Z))
    (schema : pydict) (w : W) :
  outcome (run h (check_schema R schema) w) =
  match (h _ (SuperCheckSchema schema) w).1 with
  | Ok _ => custom_validation R schema
  | Raise e => Raise e
  end.
Proof.
  unfold check_schema, outcome. cbn.
  destruct (h _ (SuperCheckSchema schema) w) as [[[]|e] w1]; reflexivity.
Qed.

Lemma run_check_schema_passes {W} (h : handler W) (R : list (string * Z))
    (schema : pydict) (w : W) :
  super_passes h schema w →
  outcome (run h (check_schema R schema) w) = custom_validation R schema.
Proof. intros Hs. rewrite run_check_schema. unfold super_passes in Hs. by rewrite Hs. Qed.

Lemma lacks_schemas_falsy (schema : pydict) :
  lacks_schemas schema → truthy (get_or_none schema "schemas") = false.
Proof. unfold get_or_none. by intros [-> | [-> | ->]]. Qed.

Lemma elem_of_coverage_errors (R : list (string * Z)) (schemas : list (string * value))
    (e : string) :
  e ∈ coverage_errors R schemas →
  ∃ t m, (t, m) ∈ R ∧ covered (entries schemas) (t, m) = false ∧
         e = schema_not_found t m.
Proof.
  unfold coverage_errors.
  intros He. apply list_elem_of_fmap in He as ([t m] & -> & Hf).
  apply list_elem_of_filter in Hf as [Hc Hin].
  apply (proj1 (routing_keys_elem R _)) in Hin.
  cbn in Hc. exists t, m. split_and!; [done | done | reflexivity].
Qed.

Lemma elem_of_first_pass_errors (schemas : list (string * value)) (e : string) :
  e ∈ first_pass_errors schemas →
  (∃ t, e = invalid_definition t) ∨ (∃ v t, e = invalid_version v t).
Proof.
  unfold first_pass_errors. rewrite list_elem_of_In, in_flat_map.
  intros (item & _ & He). unfold type_errors in He.
  destruct (versions_of item.2) as [versions|].
  - right. apply list_elem_of_In, list_elem_of_omap in He as (v & _ & Hv).
    destruct (is_malformed v.1); [| discriminate]. injection Hv as <-. eauto.
  - left. apply list_elem_of_In, list_elem_of_singleton in He. eauto.
Qed.

Lemma invalid_definition_recorded (schemas : list (string * value))
    (item : string * value) :
  item ∈ schemas → versions_of item.2 = None →
  invalid_definition item.1 ∈ first_pass_errors schemas.
Proof.
  intros Hin Hv. unfold first_pass_errors. apply list_elem_of_In, in_flat_map.
  exists item. split; [by apply list_elem_of_In |].
  unfold type_errors. rewrite Hv. by left.
Qed.

Lemma raise_if_any_cases (errs : list string) :
  (errs = [] ∧ raise_if_any errs = Ok tt) ∨
  (errs ≠ [] ∧ raise_if_any errs = Raise (SchemaError errs)).
Proof. destruct errs; [by left | by right]. Qed.

Lemma first_pass_errors_nil (schemas : list (string * value)) (item : string * value) :
  first_pass_errors schemas = [] → item ∈ schemas →
  ∃ v versions, item.2 = VDict (v :: versions).
Proof.
  intros Hnil Hin. destruct (versions_of item.2) as [versions|] eqn:Hv.
  - unfold versions_of in Hv.
    destruct item.2 as [| | | | | |[|v d]]; try discriminate. eauto.
  - pose proof (invalid_definition_recorded _ _ Hin Hv) as H.
    rewrite Hnil in H. by apply elem_of_nil in H.
Qed.

(** The shape checks where no empty version string cuts the pass short: when
    the parent's check passes, (a) a document without a non-empty [schemas]
    value is rejected with the record [invalid_schema_file]; (b) a message
    type whose value is not a non-empty mapping is never accepted, every
    [SchemaError] raised carries its record [invalid_definition], and a
    [SchemaError] is raised unless an empty version string ends the pass
    first; (c) the records of the shape and version checks come first in the
    list and the records of the coverage check after them; (d) a document
    that passes has a non-empty [schemas] mapping in which every message type
    has at least one version entry. *)
Theorem check_schema_shape_checks {W} (h : handler W) (w : W)
    (R : list (string * Z)) (schema : pydict) :
  super_passes h schema w →
  let out := outcome (run h (check_schema R schema) w) in
  (truthy (get_or_none schema "schemas") = false →
     ∃ errs, out = Raise (SchemaError errs) ∧ invalid_schema_file ∈ errs) ∧
  (∀ schemas item,
     get_or_none schema "schemas" = VDict schemas →
     item ∈ schemas → versions_of item.2 = None →
     out ≠ Ok tt ∧
     (∀ errs, out = Raise (SchemaError errs) → invalid_definition item.1 ∈ errs) ∧
     (existsb type_no_version schemas = false → ∃ errs, out = Raise (SchemaError errs))) ∧
  (∀ errs, out = Raise (SchemaError errs) →
     ∃ first cov, errs = first ++ cov ∧
       (∀ e, e ∈ first → e = invalid_schema_file ∨ (∃ t, e = invalid_definition t)
                         ∨ (∃ v t, e = invalid_version v t)) ∧
       (∀ e, e ∈ cov → ∃ t m, (t, m) ∈ R ∧ e = schema_not_found t m)) ∧
  (out = Ok tt →
     ∃ schemas, get_or_none schema "schemas" = VDict schemas ∧ schemas ≠ [] ∧
       ∀ item, item ∈ schemas → ∃ v versions, item.2 = VDict (v :: versions)).
Proof.
  intros Hs out. subst out. rewrite (run_check_schema_passes h R schema w Hs).
  rewrite custom_validation_eq. split_and!.
  - intros ->. eexists. split; [reflexivity | left].
  - intros schemas item Hget Hin Hv. rewrite Hget.
    assert (truthy (VDict schemas) = true) as ->.
    { destruct schemas; [by apply elem_of_nil in Hin | done]. }
    destruct (existsb type_no_version schemas).
    { split_and!; [done | intros errs [=] | done]. }
    pose proof (invalid_definition_recorded _ _ Hin Hv) as Hrec.
    destruct (raise_if_any_cases (first_pass_errors schemas ++ coverage_errors R schemas))
      as [[Hnil ->] | [Hne ->]].
    + apply app_eq_nil in Hnil as [Hnil _]. rewrite Hnil in Hrec.
      by apply elem_of_nil in Hrec.
    + split_and!; [done | | eauto].
      intros errs [= <-]. apply elem_of_app. by left.
  - intros errs. destruct (truthy (get_or_none schema "schemas")).
    + destruct (get_or_none schema "schemas") as [| | | | | |schemas]; try done.
      destruct (existsb type_no_version schemas); [done |].
      destruct (raise_if_any_cases (first_pass_errors schemas ++ coverage_errors R schemas))
        as [[_ ->] | [_ ->]]; [done |].
      intros [= <-]. exists (first_pass_errors schemas), (coverage_errors R schemas).
      split_and!; [done | |].
      * intros e He. right. by apply (elem_of_first_pass_errors schemas).
      * intros e He. apply elem_of_coverage_errors in He as (t & m & Hin & _ & ->).
        eauto.
    + intros [= <-]. exists [invalid_schema_file], (coverage_errors R []).
      split_and!; [done | |].
      * intros e ->%list_elem_of_singleton. by left.
      * intros e He. apply elem_of_coverage_errors in He as (t & m & Hin & _ & ->).
        eauto.
  - destruct (truthy (get_or_none schema "schemas")) eqn:Ht; [| done].
    destruct (get_or_none schema "schemas") as [| | | | | |schemas]; try done.
    destruct (existsb type_no_version schemas); [done |].
    destruct (raise_if_any_cases (first_pass_errors schemas ++ coverage_errors R schemas))
      as [[Hnil ->] | [_ ->]]; [| done].
    intros _. exists schemas. split_and!; [done | by destruct schemas |].
    apply app_eq_nil in Hnil as [Hnil _]. intros item Hin.
    by apply (first_pass_errors_nil schemas).
Qed.

(** The records of a document without [schemas]. *)
Lemma lacking_schemas_records {W} (h : handler W) (w : W)
    (R : list (string * Z)) (schema : pydict) :
  lacks_schemas schema → super_passes h schema w →
  ∃ not_found,
    outcome (run h (check_schema R schema) w)
      = Raise (SchemaError (invalid_schema_file :: not_found)) ∧
    not_found = (λ k : string * Z, schema_not_found k.1 k.2) <$> routing_keys R ∧
    (∀ t m, (t, m) ∈ R → schema_not_found t m ∈ not_found) ∧
    (NoDup R → not_found = (λ k : string * Z, schema_not_found k.1 k.2) <$> R).
Proof.
  intros Hl Hs. eexists. split_and!.
  - rewrite (run_check_schema_passes h R schema w Hs), custom_validation_eq.
    rewrite (lacks_schemas_falsy schema Hl). by rewrite coverage_errors_nil.
  - reflexivity.
  - intros t m Hin. apply list_elem_of_fmap. exists (t, m).
    split; [done | by apply routing_keys_elem].
  - intros Hnd. by rewrite routing_keys_id.
Qed.

(** C9.  When the [schemas] key is missing, [None] or empty (and the
    parent's check passes), the check raises a [SchemaError] whose list is
    the record "Invalid schema file: expected key 'schemas' with non-empty
    value" followed by one record "Schema not found for '<type>' v<major>"
    for every required (message type, major version) pair: one per key of
    the flags, every pair of the routing having its own, and for a routing
    without repeated keys exactly one per pair in the routing's order. *)
Theorem check_schema_lacking_schemas {W} (h : handler W) (w : W)
    (R : list (string * Z)) (schema : pydict) :
  lacks_schemas schema → super_passes h schema w →
  ∃ not_found,
    outcome (run h (check_schema R schema) w)
      = Raise (SchemaError
                 ("Invalid schema file: expected key 'schemas' with non-empty value"
                  :: not_found)) ∧
    not_found
      = (λ k : string * Z,
           "Schema not found for '" +:+ k.1 +:+ "' v" +:+ str_of_int k.2)
          <$> routing_keys R ∧
    (∀ t m, (t, m) ∈ R →
            "Schema not found for '" +:+ t +:+ "' v" +:+ str_of_int m ∈ not_found) ∧
    (NoDup R →
     not_found
       = (λ k : string * Z,
            "Schema not found for '" +:+ k.1 +:+ "' v" +:+ str_of_int k.2) <$> R).
Proof. exact (lacking_schemas_records h w R schema). Qed.

Lemma well_formed_items (schemas : list (string * value)) :
  well_formed schemas = true →
  schemas ≠ [] ∧
  ∀ item, item ∈ schemas →
    ∃ versions, versions_of item.2 = Some versions ∧
                ∀ v, v ∈ versions → is_parsed v.1 = true.
Proof.
  unfold well_formed. destruct schemas as [|i0 schemas]; [done |].
  intros Hall. split; [done |]. intros item Hin%list_elem_of_In.
  rewrite forallb_forall in Hall. specialize (Hall item Hin).
  destruct (versions_of item.2) as [versions|]; [| discriminate].
  exists versions. split; [done |]. intros v Hv%list_elem_of_In.
  rewrite forallb_forall in Hall. by apply Hall.
Qed.

Lemma well_formed_no_errors (schemas : list (string * value)) :
  well_formed schemas = true →
  existsb type_no_version schemas = false ∧ first_pass_errors schemas = [].
Proof.
  intros [_ Hitems]%well_formed_items. split.
  - apply not_true_is_false. intros (item & Hin%list_elem_of_In & Hno)%existsb_exists.
    destruct (Hitems item Hin) as (versions & Hv & Hp).
    unfold type_no_version in Hno. rewrite Hv in Hno.
    apply existsb_exists in Hno as (v & Hvin%list_elem_of_In & Hnv).
    specialize (Hp v Hvin). unfold is_parsed in Hp. unfold is_no_version in Hnv.
    by destruct (classify v.1).
  - unfold first_pass_errors.
    induction schemas as [|item schemas IH]; [done |].
    cbn [flat_map]. rewrite IH by (intros i Hi; apply Hitems; by right).
    rewrite app_nil_r. destruct (Hitems item) as (versions & Hv & Hp); [left |].
    unfold type_errors. rewrite Hv. unfold version_errors.
    clear Hv. induction versions as [|v versions IHv]; [done |].
    cbn [omap list_omap]. pose proof (Hp v (list_elem_of_here _ _)) as Hpv.
    unfold is_parsed in Hpv. unfold is_malformed at 1.
    destruct (classify v.1); try discriminate.
    apply IHv. intros v' Hv'. apply Hp. by right.
Qed.

Lemma custom_validation_well_formed (R : list (string * Z)) (schema : pydict)
    (schemas : list (string * value)) :
  get_or_none schema "schemas" = VDict schemas →
  well_formed schemas = true →
  custom_validation R schema = raise_if_any (coverage_errors R schemas).
Proof.
  intros Hget Hwf. rewrite custom_validation_eq, Hget.
  destruct (well_formed_items _ Hwf) as [Hne _].
  destruct (well_formed_no_errors _ Hwf) as [-> ->].
  by destruct schemas.
Qed.

(** C10.  Entries outside the required set contribute nothing: for two
    well-formed documents all of whose version strings parse, the second
    having all the entries of the first and otherwise only entries whose
    (message type, major version) pair is not required, the check has the
    same outcome: success, or the same list of records. *)
Theorem check_schema_ignores_extras {W} (h : handler W) (w w' : W)
    (R : list (string * Z)) (schema schema' : pydict)
    (schemas schemas' : list (string * value)) :
  get_or_none schema "schemas" = VDict schemas →
  get_or_none schema' "schemas" = VDict schemas' →
  well_formed schemas = true →
  well_formed schemas' = true →
  (∀ e, e ∈ entries schemas → e ∈ entries schemas') →
  (∀ e, e ∈ entries schemas' →
        e ∈ entries schemas ∨ ∀ m, classify e.2 = Parsed m → (e.1, m) ∉ R) →
  super_passes h schema w →
  super_passes h schema' w' →
  outcome (run h (check_schema R schema') w')
  = outcome (run h (check_schema R schema) w).
Proof.
  intros Hget Hget' Hwf Hwf' Hsub Hextra Hs Hs'.
  rewrite (run_check_schema_passes h R schema w Hs).
  rewrite (run_check_schema_passes h R schema' w' Hs').
  rewrite (custom_validation_well_formed R schema schemas Hget Hwf).
  rewrite (custom_validation_well_formed R schema' schemas' Hget' Hwf').
  f_equal. unfold coverage_errors. f_equal. apply filter_ext_in.
  intros k Hk. apply (proj1 (routing_keys_elem R k)) in Hk.
  assert (covered (entries schemas') k = true ↔ covered (entries schemas) k = true)
    as Hiff.
  { unfold covered. rewrite !existsb_exists. split.
    - intros (e & He%list_elem_of_In & Hb).
      destruct (Hextra e He) as [Hin | Hout].
      + exists e. split; [by apply list_elem_of_In | done].
      + apply andb_true_iff in Hb as [H1%bool_decide_eq_true H2%bool_decide_eq_true].
        exfalso. apply (Hout k.2 H2). rewrite H1. by destruct k.
    - intros (e & He%list_elem_of_In & Hb). exists e.
      split; [apply list_elem_of_In; by apply Hsub | done]. }
  destruct (covered (entries schemas') k), (covered (entries schemas) k);
    intuition congruence.
Qed.

(** ** Counting the records *)

Lemma length_version_errors (t : string) (versions : list (string * value)) :
  length (version_errors t versions) =
  length (filter (λ e : string * string, is_malformed e.2 = true)
                 (map (λ v : string * value, (t, v.1)) versions)).
Proof.
  induction versions as [|v versions IH]; [done |].
  rewrite version_errors_cons. cbn [map]. rewrite filter_cons. cbn [snd].
  rewrite length_app, IH.
  destruct (is_malformed v.1); [rewrite decide_True by done | rewrite decide_False by done];
    reflexivity.
Qed.

Lemma length_first_pass_errors (schemas : list (string * value)) :
  length (first_pass_errors schemas)
  = (shape_count schemas + malformed_count schemas)%nat.
Proof.
  unfold first_pass_errors, shape_count, malformed_count, entries.
  induction schemas as [|item schemas IH]; [done |].
  cbn [flat_map]. rewrite filter_cons, filter_app, !length_app, IH.
  unfold type_errors. destruct (versions_of item.2) as [versions|] eqn:Hv.
  - rewrite decide_False by done. rewrite length_version_errors. lia.
  - rewrite decide_True by done. cbn. lia.
Qed.

(** X6.  Apart from an empty version string and a [schemas] value that is no
    mapping, the check collects every record in one pass: S + M + K of them,
    raised together when there is one. *)
Theorem check_schema_collects_all {W} (h : handler W) (w : W)
    (R : list (string * Z)) (schema : pydict) (schemas : list (string * value)) :
  super_passes h schema w →
  get_or_none schema "schemas" = VDict schemas → schemas ≠ [] →
  existsb type_no_version schemas = false →
  ∃ errs,
    outcome (run h (check_schema R schema) w) = raise_if_any errs ∧
    length errs
    = (shape_count schemas + malformed_count schemas + missing_count R schemas)%nat.
Proof.
  intros Hs Hget Hne Hnv.
  exists (first_pass_errors schemas ++ coverage_errors R schemas). split.
  - rewrite (run_check_schema_passes h R schema w Hs), custom_validation_eq, Hget, Hnv.
    by destruct schemas.
  - rewrite length_app, length_first_pass_errors. unfold coverage_errors, missing_count.
    by rewrite length_fmap.
Qed.

(** C2 (fails on the code).  The claim: for every document that passes the
    parent's check, the schema check raises one [SchemaError] carrying all
    K + M (+ shape) records.  With the required pair [("trip_created", 1)],
    a document whose only version string is the empty string (K = 1, M = 1)
    ends the check with an uncaught [AttributeError] and no record at all:
    [StrictVersion("")] does not parse, sets no [version], and the handler
    catches [ValueError] only.  So does a document whose [schemas] value is a
    non-empty list, which has no [items]. *)
Theorem check_schema_uncaught_attribute_error :
  outcome (run permissive (check_schema [("trip_created", 1)] doc_empty_version) tt)
    = Raise AttributeError ∧
  outcome (run permissive (check_schema [("trip_created", 1)] doc_schemas_list) tt)
    = Raise AttributeError.
Proof. split; reflexivity. Qed.

(** C7 (fails on the code).  The claim: the schema check rejects, with a
    recorded error, every message type whose value is not a non-empty
    mapping, and collects the shape errors alongside those of the coverage
    check.  In the second document below the value of ['user_updated'] is
    [3] and the check raises [SchemaError] with its record.  In the first
    the same message type is followed by one whose version string is empty:
    the record is appended, then the [AttributeError] of the empty version
    string ends the check, and the record is lost with every other one. *)
Theorem check_schema_shape_record_lost :
  outcome (run permissive
             (check_schema [("trip_created", 1)] doc_bad_shape_then_empty_version) tt)
    = Raise AttributeError ∧
  outcome (run permissive (check_schema [("trip_created", 1)] doc_bad_shape_only) tt)
    = Raise (SchemaError
               ["Invalid definition for message type: 'user_updated', value must contain a dict of valid versions"]).
Proof. split; reflexivity. Qed.

(** ** Message validation *)

(** A run of [validate] once the root id is known to be the string [root]. *)
Lemma run_validate {W} (h : handler W) (w : W) (schema : pydict) (root : string)
    (message : Message.t) :
  dict_get schema "id" = Some (VStr root) →
  run h (validate schema message) w =
  if String.prefix root (Message.schema message)
  then let '(r, w1) := h _ (Resolve (Message.schema message)) w in
       match r with
       | Ok resolved =>
           let '(r', w2) :=
             h _ (IterErrors (Message.data message) (Some resolved.2)) w1 in
           (match r' with
            | Ok errs => raise_if_violations errs
            | Raise e => Raise e
            end, w2,
            [Ev (Resolve (Message.schema message));
             Ev (IterErrors (Message.data message) (Some resolved.2))])
       | Raise RefResolutionError =>
           (Raise (ValidationError None), w1, [Ev (Resolve (Message.schema message))])
       | Raise e => (Raise e, w1, [Ev (Resolve (Message.schema message))])
       end
  else (Raise (ValidationError None), w, []).
Proof.
  intros Hid. unfold validate, schema_root. rewrite Hid. cbn.
  destruct (String.prefix root (Message.schema message)); [| reflexivity].
  cbn. destruct (h _ (Resolve (Message.schema message)) w) as [[resolved|e] w1].
  - cbn. destruct (h _ (IterErrors _ _) w1) as [[[|v errs]|e] w2]; reflexivity.
  - destruct e; reflexivity.
Qed.

(** C3.  A message whose schema reference does not start with the
    document's root id makes [validate] raise [ValidationError] with no
    record, and nothing else happens: the method body is that bare raise, so
    against any engine the run makes no call (no resolution, no structural
    check) and leaves the world as it was. *)
Theorem validate_root_mismatch {W} (h : handler W) (w : W) (schema : pydict)
    (root : string) (message : Message.t) :
  dict_get schema "id" = Some (VStr root) →
  String.prefix root (Message.schema message) = false →
  validate schema message = raise (ValidationError None) ∧
  run h (validate schema message) w = (Raise (ValidationError None), w, []).
Proof.
  intros Hid Hp. split.
  - unfold validate, schema_root. rewrite Hid. cbn. by rewrite Hp.
  - by rewrite (run_validate h w schema root message Hid), Hp.
Qed.

(** C5.  A message whose reference starts with the root id but which the
    resolver fails to resolve ([RefResolutionError]) makes [validate] raise
    its own [ValidationError], with no record; the resolver's exception does
    not reach the caller, and no structural check is made. *)
Theorem validate_unresolved_reference {W} (h : handler W) (w : W) (schema : pydict)
    (root : string) (message : Message.t) :
  dict_get schema "id" = Some (VStr root) →
  String.prefix root (Message.schema message) = true →
  (h _ (Resolve (Message.schema message)) w).1 = Raise RefResolutionError →
  let r := run h (validate schema message) w in
  outcome r = Raise (ValidationError None) ∧
  outcome r ≠ Raise RefResolutionError ∧
  calls r = [Ev (Resolve (Message.schema message))].
Proof.
  intros Hid Hp Hres r. subst r.
  rewrite (run_validate h w schema root message Hid), Hp.
  destruct (h _ (Resolve (Message.schema message)) w) as [res w1].
  cbn in Hres. subst res. by split_and!.
Qed.

(** C4.  Once the reference is resolved to a sub-schema, and for a payload
    checked against the meta-schema, the validation returns normally when
    the engine reports no violation and otherwise raises [ValidationError]
    carrying the whole list the engine reported: it raises exactly when
    there is a violation, and loses none. *)
Theorem validate_raises_all_violations {W} (h : handler W) (w w1 wf : W)
    (schema : pydict) (root : string) (message : Message.t)
    (url : string) (sub : value) (errs : list violation)
    (format_schema data : value) (ferrs : list violation) :
  dict_get schema "id" = Some (VStr root) →
  String.prefix root (Message.schema message) = true →
  h _ (Resolve (Message.schema message)) w = (Ok (url, sub), w1) →
  (h _ (IterErrors (Message.data message) (Some sub)) w1).1 = Ok errs →
  (h _ (IterErrors data None) wf).1 = Ok ferrs →
  let out := outcome (run h (validate schema message) w) in
  let fout := outcome (run h (FormatValidator.validate format_schema data) wf) in
  (errs = [] → out = Ok tt) ∧
  (errs ≠ [] → out = Raise (ValidationError (Some errs))) ∧
  (ferrs = [] → fout = Ok tt) ∧
  (ferrs ≠ [] → fout = Raise (ValidationError (Some ferrs))).
Proof.
  intros Hid Hp Hres Herrs Hferrs out fout. subst out fout.
  rewrite (run_validate h w schema root message Hid), Hp, Hres. cbn [snd].
  destruct (h _ (IterErrors (Message.data message) (Some sub)) w1) as [r' w2].
  cbn in Herrs. subst r'.
  unfold FormatValidator.validate. cbn.
  destruct (h _ (IterErrors data None) wf) as [rf w3]. cbn in Hferrs. subst rf.
  unfold outcome. cbn.
  split_and!.
  - by intros ->.
  - by destruct errs.
  - by intros ->.
  - by destruct ferrs.
Qed.

(** ** Formats *)

Lemma registered_lookup_other (seed : gmap string (value → bool))
    (regs : list (string * (value → bool))) (name : string) :
  name ∉ regs.*1 → FormatChecker.registered seed regs !! name = seed !! name.
Proof.
  unfold FormatChecker.registered. revert seed.
  induction regs as [|[n p] regs IH]; intros seed Hn; [done |].
  cbn [fold_left]. rewrite IH.
  - unfold FormatChecker.register. cbn. apply lookup_insert_ne.
    intros ->. apply Hn. cbn. left.
  - intros Hin. apply Hn. cbn. by right.
Qed.

(** C6.  A format name that is neither in the seed of the registry nor among
    the registered names is not enforced: [check] returns true for it,
    whatever the value. *)
Theorem check_unregistered_format (seed : gmap string (value → bool))
    (regs : list (string * (value → bool))) (name : string) (v : value) :
  seed !! name = None → name ∉ regs.*1 →
  FormatChecker.check (FormatChecker.registered seed regs) name v = true.
Proof.
  intros Hseed Hregs. unfold FormatChecker.check.
  by rewrite registered_lookup_other, Hseed.
Qed.

Lemma check_human_uuid_registered (builtin : gmap string (value → bool)) (v : value) :
  FormatChecker.check (checker builtin) "human-uuid" v = check_human_uuid v.
Proof.
  unfold FormatChecker.check, checker, FormatChecker.register.
  rewrite lookup_insert_eq. by destruct v.
Qed.

Lemma hex_group_length (n : nat) (g : string) : hex_group n g → String.length g = n.
Proof. by intros [H _]. Qed.

Lemma canonical_uuid_length (s : string) : canonical_uuid s → String.length s = 36%nat.
Proof.
  intros (g1 & g2 & g3 & g4 & g5 & H1 & H2 & H3 & H4 & H5 & ->).
  rewrite !length_append.
  rewrite (hex_group_length _ _ H1), (hex_group_length _ _ H2),
    (hex_group_length _ _ H3), (hex_group_length _ _ H4), (hex_group_length _ _ H5).
  reflexivity.
Qed.

(** X1.  What the predicate accepts: every value that is not a string, and of
    the strings exactly the canonical lowercase 8-4-4-4-12 identifiers and
    those followed by one newline. *)
Theorem check_human_uuid_accepts (instance : value) :
  check_human_uuid instance = true ↔
  (∀ s, instance ≠ VStr s) ∨
  ∃ s, instance = VStr s ∧
       (canonical_uuid s ∨ ∃ u, canonical_uuid u ∧ s = u +:+ String newline "").
Proof.
  destruct instance as [| | | |s| |]; unfold check_human_uuid;
    try (split; [intros _; by left | done]).
  rewrite human_uuid_re_matches. split.
  - intros H. right. by exists s.
  - intros [H | (s' & [= <-] & H)]; [by destruct (H s) | done].
Qed.

(** C1 (fails on the code).  The claim: [check("human-uuid", x)] is true
    exactly when [x] is not a string or is a string in the canonical
    lowercase 8-4-4-4-12 form, every other length, extra trailing characters
    included, being rejected.  The pattern ends in [$], which also matches
    just before a final newline: the 37-character string made of a canonical
    UUID and a newline is accepted, by the predicate and through the
    registry, although it is not in the canonical form. *)
Theorem check_human_uuid_trailing_newline (builtin : gmap string (value → bool)) :
  let s := sample_uuid +:+ String newline "" in
  FormatChecker.check (checker builtin) "human-uuid" (VStr s) = true ∧
  check_human_uuid (VStr s) = true ∧
  String.length s = 37%nat ∧
  ¬ canonical_uuid s.
Proof.
  intros s. split_and!.
  - by rewrite check_human_uuid_registered.
  - reflexivity.
  - reflexivity.
  - intros H%canonical_uuid_length. discriminate.
Qed.

(** ** The theorems at sample inputs *)

Lemma validate_root_mismatch_witness :
  String.prefix "https://hedwig.example/schema" (Message.schema foreign_message) = false ∧
  run permissive (validate doc_sample foreign_message) tt
  = (Raise (ValidationError None), tt, []).
Proof.
  split; [reflexivity |].
  exact (proj2 (validate_root_mismatch permissive tt doc_sample
                  "https://hedwig.example/schema" foreign_message eq_refl eq_refl)).
Defined.

Lemma validate_unresolved_reference_witness :
  (dangling _ (Resolve (Message.schema sample_message)) tt).1 = Raise RefResolutionError ∧
  outcome (run dangling (validate doc_sample sample_message) tt)
  = Raise (ValidationError None).
Proof.
  split; [reflexivity |].
  exact (proj1 (validate_unresolved_reference dangling tt doc_sample
                  "https://hedwig.example/schema" sample_message
                  eq_refl eq_refl eq_refl)).
Defined.

Lemma validate_raises_all_violations_witness :
  outcome (run counting (validate doc_sample sample_message) (sample_inputs, 0%nat))
  = Raise (ValidationError (Some three_violations)) ∧
  outcome (run counting (FormatValidator.validate (VDict []) (VInt 1))
             (sample_inputs, 0%nat))
  = Ok tt.
Proof.
  pose proof (validate_raises_all_violations counting
                (sample_inputs, 0%nat) (sample_inputs, 1%nat) (sample_inputs, 0%nat)
                doc_sample "https://hedwig.example/schema" sample_message
                (Message.schema sample_message) (VDict doc_sample) three_violations
                (VDict []) (VInt 1) []
                eq_refl eq_refl eq_refl eq_refl eq_refl) as (_ & Hall & Hnone & _).
  split; [apply Hall; discriminate | apply Hnone; reflexivity].
Defined.

Lemma check_unregistered_format_witness :
  FormatChecker.check
    (FormatChecker.registered ∅ [("human-uuid", check_human_uuid)])
    "date-time" (VStr "yesterday") = true.
Proof.
  apply check_unregistered_format.
  - apply lookup_empty.
  - cbn. intros H. apply list_elem_of_singleton in H. discriminate.
Defined.

Lemma check_schema_shape_checks_witness :
  super_passes permissive doc_bad_shape tt ∧
  outcome (run permissive (check_schema [("trip_created", 1)] doc_bad_shape) tt) ≠ Ok tt.
Proof.
  split; [reflexivity |].
  destruct (check_schema_shape_checks permissive tt [("trip_created", 1)]
              doc_bad_shape eq_refl) as (_ & Hshape & _).
  refine (proj1 (Hshape _ ("user_updated", VInt 3) eq_refl _ eq_refl)).
  apply list_elem_of_further, list_elem_of_here.
Defined.

Lemma check_schema_lacking_schemas_witness :
  lacks_schemas [("id", VStr "https://hedwig.example/schema")] ∧
  outcome (run permissive
             (check_schema [("trip_created", 1); ("user_updated", 2)]
                [("id", VStr "https://hedwig.example/schema")]) tt)
  = Raise (SchemaError
             ["Invalid schema file: expected key 'schemas' with non-empty value";
              "Schema not found for 'trip_created' v1";
              "Schema not found for 'user_updated' v2"]).
Proof.
  split; [by left |].
  destruct (check_schema_lacking_schemas permissive tt
              [("trip_created", 1); ("user_updated", 2)]
              [("id", VStr "https://hedwig.example/schema")]
              (or_introl eq_refl) eq_refl) as (nf & Hout & _ & _ & Hnf).
  rewrite Hout, Hnf; [reflexivity |].
  apply NoDup_cons. split; [| apply NoDup_singleton].
  intros Hin. apply list_elem_of_singleton in Hin. discriminate.
Defined.

Lemma check_schema_ignores_extras_witness :
  outcome (run permissive (check_schema [("trip_created", 1)] doc_sample_extended) tt)
  = outcome (run permissive (check_schema [("trip_created", 1)] doc_sample) tt).
Proof.
  eapply (check_schema_ignores_extras permissive tt tt [("trip_created", 1)]
            doc_sample doc_sample_extended).
  - reflexivity.
  - reflexivity.
  - reflexivity.
  - reflexivity.
  - intros e He. cbn in He. apply list_elem_of_singleton in He as ->.
    cbn. apply list_elem_of_here.
  - intros e He. cbn in He.
    apply elem_of_cons in He as [-> | He]; [left; cbn; apply list_elem_of_here |].
    right. intros m Hm Hin. apply list_elem_of_singleton in Hin.
    apply elem_of_cons in He as [-> | He].
    + vm_compute in Hm. injection Hm as <-. discriminate.
    + apply list_elem_of_singleton in He as ->. discriminate.
  - reflexivity.
  - reflexivity.
Defined.

(** ** Further properties of the schema check *)

Lemma is_no_version_empty (v : string) : is_no_version v = true ↔ v = ""%string.
Proof.
  unfold is_no_version, classify. destruct (String.eqb_spec v "") as [-> | Hne].
  - done.
  - destruct (distutils.version_re_match v) as [[[[major minor] patch] pre]|];
      split; (discriminate || done).
Qed.

Lemma type_no_version_empty (schemas : list (string * value)) :
  existsb type_no_version schemas = true ↔
  ∃ item versions v, item ∈ schemas ∧ versions_of item.2 = Some versions ∧
                     v ∈ versions ∧ v.1 = ""%string.
Proof.
  rewrite existsb_exists. split.
  - intros (item & Hin%list_elem_of_In & Hno). unfold type_no_version in Hno.
    destruct (versions_of item.2) as [versions|] eqn:Hv; [| discriminate].
    apply existsb_exists in Hno as (v & Hvin%list_elem_of_In & Hnv).
    apply is_no_version_empty in Hnv. by exists item, versions, v.
  - intros (item & versions & v & Hin & Hv & Hvin & Hempty).
    exists item. split; [by apply list_elem_of_In |].
    unfold type_no_version. rewrite Hv. apply existsb_exists.
    exists v. split; [by apply list_elem_of_In | by apply is_no_version_empty].
Qed.

Lemma run_check_schema_calls {W} (h : handler W) (R : list (string * Z))
    (schema : pydict) (w : W) :
  calls (run h (check_schema R schema) w) = [Ev (SuperCheckSchema schema)].
Proof.
  unfold check_schema, calls. cbn.
  destruct (h _ (SuperCheckSchema schema) w) as [[[]|e] w1]; reflexivity.
Qed.

(** X3.  When the parent's check raises, [check_schema] raises that very
    exception and none of its own records is collected; whatever the
    document, the parent's check is the one call made to the engine. *)
Theorem check_schema_parent_failure {W} (h : handler W) (w : W)
    (R : list (string * Z)) (schema : pydict) (e : exn) :
  (h _ (SuperCheckSchema schema) w).1 = Raise e →
  outcome (run h (check_schema R schema) w) = Raise e ∧
  calls (run h (check_schema R schema) w) = [Ev (SuperCheckSchema schema)].
Proof.
  intros He. split; [| apply run_check_schema_calls].
  by rewrite run_check_schema, He.
Qed.

Lemma no_errors_well_formed (schemas : list (string * value)) :
  schemas ≠ [] → existsb type_no_version schemas = false →
  first_pass_errors schemas = [] → well_formed schemas = true.
Proof.
  intros Hne Hnv Hfp. unfold well_formed. destruct schemas as [|i0 schemas]; [done |].
  apply forallb_forall. intros item Hin%list_elem_of_In.
  destruct (versions_of item.2) as [versions|] eqn:Hv.
  - apply forallb_forall. intros v Hvin%list_elem_of_In. unfold is_parsed.
    destruct (classify v.1) as [major| |] eqn:Hc; [done | |].
    + assert (invalid_version v.1 item.1 ∈ first_pass_errors (i0 :: schemas)) as Hrec.
      { unfold first_pass_errors. apply list_elem_of_In, in_flat_map.
        exists item. split; [by apply list_elem_of_In |].
        unfold type_errors. rewrite Hv. apply list_elem_of_In, list_elem_of_omap.
        exists v. split; [done |]. unfold is_malformed. by rewrite Hc. }
      rewrite Hfp in Hrec. by apply elem_of_nil in Hrec.
    + assert (existsb type_no_version (i0 :: schemas) = true) as Habs.
      { apply type_no_version_empty. exists item, versions, v.
        split_and!; [done | done | done |].
        apply is_no_version_empty. unfold is_no_version. by rewrite Hc. }
      congruence.
  - pose proof (invalid_definition_recorded _ _ Hin Hv) as Hrec.
    rewrite Hfp in Hrec. by apply elem_of_nil in Hrec.
Qed.

Lemma filter_none {A} (P : A → Prop) `{∀ x, Decision (P x)} (l : list A) :
  (∀ x, x ∈ l → ¬ P x) → filter P l = [].
Proof.
  induction l as [|x l IH]; intros Hall; [done |].
  rewrite filter_cons, decide_False by (apply Hall; left).
  apply IH. intros y Hy. apply Hall. by right.
Qed.

Lemma coverage_errors_nil_iff (R : list (string * Z)) (schemas : list (string * value)) :
  coverage_errors R schemas = [] ↔ ∀ k, k ∈ R → covered (entries schemas) k = true.
Proof.
  unfold coverage_errors. split.
  - intros Hnil%fmap_nil_inv k Hk.
    destruct (covered (entries schemas) k) eqn:Hc; [done |].
    assert (k ∈ filter (λ k, covered (entries schemas) k = false) (routing_keys R)) as Hin.
    { apply list_elem_of_filter. split; [done | by apply routing_keys_elem]. }
    rewrite Hnil in Hin. by apply elem_of_nil in Hin.
  - intros Hall.
    assert (filter (λ k, covered (entries schemas) k = false) (routing_keys R) = [])
      as ->; [| done].
    apply filter_none. intros k Hin Hc.
    apply (proj1 (routing_keys_elem R k)) in Hin. specialize (Hall k Hin). congruence.
Qed.

(** X4.  When the parent's check passes, [check_schema] returns normally
    exactly for the documents whose [schemas] value is a non-empty mapping
    in which every message type has a non-empty mapping of versions, every
    version string parses, and every required (message type, major version)
    pair has an entry of that major version. *)
Theorem check_schema_accepts_iff {W} (h : handler W) (w : W)
    (R : list (string * Z)) (schema : pydict) :
  super_passes h schema w →
  outcome (run h (check_schema R schema) w) = Ok tt ↔
  ∃ schemas, get_or_none schema "schemas" = VDict schemas ∧
             well_formed schemas = true ∧
             ∀ k, k ∈ R → covered (entries schemas) k = true.
Proof.
  intros Hs. rewrite (run_check_schema_passes h R schema w Hs). split.
  - rewrite custom_validation_eq.
    destruct (truthy (get_or_none schema "schemas")) eqn:Ht; [| done].
    destruct (get_or_none schema "schemas") as [| | | | | |schemas]; try done.
    destruct (existsb type_no_version schemas) eqn:Hnv; [done |].
    destruct (raise_if_any_cases (first_pass_errors schemas ++ coverage_errors R schemas))
      as [[Hnil ->] | [_ ->]]; [| done].
    intros _. apply app_eq_nil in Hnil as [Hfp Hcov]. exists schemas.
    split_and!; [done | | by apply coverage_errors_nil_iff].
    apply no_errors_well_formed; [by destruct schemas | done | done].
  - intros (schemas & Hget & Hwf & Hcov).
    rewrite (custom_validation_well_formed R schema schemas Hget Hwf).
    apply coverage_errors_nil_iff in Hcov. by rewrite Hcov.
Qed.


(** X7.  For a document whose mappings have string keys, as JSON decoding
    yields, and when the parent's check passes, [check_schema] returns,
    raises [SchemaError] with a non-empty list, or raises [AttributeError],
    and nothing else: no [ValueError], [IndexError] or [KeyError] escapes.
    It is [AttributeError] exactly when the [schemas] value is truthy and is
    no mapping or has, under a well-shaped message type, an empty version
    string. *)
Theorem check_schema_outcomes {W} (h : handler W) (w : W)
    (R : list (string * Z)) (schema : pydict) :
  super_passes h schema w →
  let out := outcome (run h (check_schema R schema) w) in
  (out = Ok tt ∨ (∃ errs, errs ≠ [] ∧ out = Raise (SchemaError errs))
   ∨ out = Raise AttributeError) ∧
  (out = Raise AttributeError ↔
   truthy (get_or_none schema "schemas") = true ∧
   ∀ schemas, get_or_none schema "schemas" = VDict schemas →
     ∃ item versions v, item ∈ schemas ∧ versions_of item.2 = Some versions ∧
                        v ∈ versions ∧ v.1 = ""%string).
Proof.
  intros Hs out. subst out.
  rewrite (run_check_schema_passes h R schema w Hs), custom_validation_eq.
  destruct (truthy (get_or_none schema "schemas")) eqn:Ht.
  - destruct (get_or_none schema "schemas") as [| | | | | |schemas] eqn:Hget;
      try (split; [by right; right | split; [intros _; split; [done | intros ? [=]] | done]]).
    destruct (existsb type_no_version schemas) eqn:Hnv.
    + split; [by right; right |]. split; [| done]. intros _. split; [done |].
      intros ? [= <-]. by apply type_no_version_empty.
    + destruct (raise_if_any_cases (first_pass_errors schemas ++ coverage_errors R schemas))
        as [[_ ->] | [Hne ->]].
      * split; [by left |]. split; [done |]. intros [_ Hex].
        specialize (Hex schemas eq_refl).
        apply type_no_version_empty in Hex. congruence.
      * split; [right; left; eauto |]. split; [done |]. intros [_ Hex].
        specialize (Hex schemas eq_refl).
        apply type_no_version_empty in Hex. congruence.
  - split; [right; left; eexists; split; [| reflexivity]; done |].
    split; [done | by intros [? _]].
Qed.

(** X8.  Apart from the parent's check, [check_schema] reads nothing of the
    document but the value under [schemas]: two documents that agree there
    have the same outcome, whatever their [id] and other keys. *)
Theorem check_schema_reads_only_schemas {W} (h : handler W) (w w' : W)
    (R : list (string * Z)) (schema schema' : pydict) :
  get_or_none schema "schemas" = get_or_none schema' "schemas" →
  super_passes h schema w → super_passes h schema' w' →
  outcome (run h (check_schema R schema) w)
  = outcome (run h (check_schema R schema') w').
Proof.
  intros Hget Hs Hs'.
  rewrite (run_check_schema_passes h R schema w Hs).
  rewrite (run_check_schema_passes h R schema' w' Hs').
  by rewrite !custom_validation_eq, Hget.
Qed.

Lemma versions_of_map_definitions (f : value → value) (item : string * value) :
  versions_of (map_type_definitions f item).2
  = map (λ x : string * value, (x.1, f x.2)) <$> versions_of item.2.
Proof.
  unfold map_type_definitions. cbn [snd].
  destruct item.2 as [| | | | | |[|x d]]; reflexivity.
Qed.

Lemma type_errors_map_definitions (f : value → value) (item : string * value) :
  type_errors (map_type_definitions f item) = type_errors item.
Proof.
  unfold type_errors. rewrite versions_of_map_definitions.
  change (map_type_definitions f item).1 with item.1.
  destruct (versions_of item.2) as [versions|]; [| reflexivity].
  cbn [fmap option_fmap option_map]. unfold version_errors.
  induction versions as [|v versions IHv]; [reflexivity |].
  cbn [map omap list_omap fst]. by rewrite IHv.
Qed.

Lemma type_no_version_map_definitions (f : value → value) (item : string * value) :
  type_no_version (map_type_definitions f item) = type_no_version item.
Proof.
  unfold type_no_version. rewrite versions_of_map_definitions.
  destruct (versions_of item.2) as [versions|]; [| reflexivity].
  cbn [fmap option_fmap option_map].
  induction versions as [|v versions IHv]; [reflexivity |].
  cbn [map existsb fst]. by rewrite IHv.
Qed.

Lemma map_definitions_same (f : value → value) (schemas : list (string * value)) :
  first_pass_errors (map_definitions f schemas) = first_pass_errors schemas ∧
  entries (map_definitions f schemas) = entries schemas ∧
  existsb type_no_version (map_definitions f schemas)
  = existsb type_no_version schemas.
Proof.
  unfold first_pass_errors, entries, map_definitions.
  induction schemas as [|item schemas (IH1 & IH2 & IH3)]; [done |].
  cbn [map flat_map existsb].
  rewrite IH1, IH2, IH3, type_errors_map_definitions, type_no_version_map_definitions.
  split_and!; [done | | done].
  f_equal. rewrite versions_of_map_definitions.
  change (map_type_definitions f item).1 with item.1.
  destruct (versions_of item.2) as [versions|]; [| reflexivity].
  cbn [fmap option_fmap option_map]. by rewrite map_map.
Qed.

(** X9.  [check_schema] never looks into a sub-schema: replacing every
    definition of the document by anything else leaves the outcome of the
    check unchanged. *)
Theorem check_schema_ignores_definitions {W} (h : handler W) (w w' : W)
    (R : list (string * Z)) (f : value → value) (schema schema' : pydict)
    (schemas : list (string * value)) :
  get_or_none schema "schemas" = VDict schemas →
  get_or_none schema' "schemas" = VDict (map_definitions f schemas) →
  super_passes h schema w → super_passes h schema' w' →
  outcome (run h (check_schema R schema') w')
  = outcome (run h (check_schema R schema) w).
Proof.
  intros Hget Hget' Hs Hs'.
  rewrite (run_check_schema_passes h R schema w Hs).
  rewrite (run_check_schema_passes h R schema' w' Hs').
  rewrite !custom_validation_eq, Hget, Hget'.
  destruct (map_definitions_same f schemas) as (-> & Hent & ->).
  unfold coverage_errors. rewrite Hent.
  by destruct schemas.
Qed.

(** ** Further properties of message validation *)

Lemma prefix_iff (r s : string) :
  String.prefix r s = true ↔ ∃ suffix, s = r +:+ suffix.
Proof.
  revert s. induction r as [|c r IH]; intros s.
  - split; [intros _; by exists s | by destruct s].
  - destruct s as [|c' s]; cbn [String.prefix].
    + split; [done | intros (suffix & Hs); discriminate].
    + destruct (ascii_dec c c') as [<- | Hne].
      * rewrite IH. split.
        -- intros (suffix & ->). by exists suffix.
        -- intros (suffix & Hs). rewrite append_cons in Hs. injection Hs as ->.
           by exists suffix.
      * split; [done |]. intros (suffix & Hs). rewrite append_cons in Hs.
        by injection Hs as <- _.
Qed.

Lemma validate_bad_root_id_runs {W} (h : handler W) (w : W) (schema : pydict)
    (message : Message.t) :
  (dict_get schema "id" = None →
   run h (validate schema message) w = (Raise KeyError, w, [])) ∧
  (∀ v, dict_get schema "id" = Some v → (∀ s, v ≠ VStr s) →
   run h (validate schema message) w = (Raise TypeError, w, [])).
Proof.
  split.
  - intros Hid. unfold validate, schema_root. by rewrite Hid.
  - intros v Hid Hv. unfold validate, schema_root. rewrite Hid.
    destruct v as [| | | |s| |]; try reflexivity. by destruct (Hv s).
Qed.

(** X11.  On a document without [id], [validate] raises [KeyError] for every
    message; on a document whose [id] is not a string it raises [TypeError];
    in both cases before any call to the engine. *)
Theorem validate_bad_root_id {W} (h : handler W) (w : W) (schema : pydict)
    (message : Message.t) :
  (dict_get schema "id" = None →
   run h (validate schema message) w = (Raise KeyError, w, [])) ∧
  (∀ v, dict_get schema "id" = Some v → (∀ s, v ≠ VStr s) →
   run h (validate schema message) w = (Raise TypeError, w, [])).
Proof. exact (validate_bad_root_id_runs h w schema message). Qed.

(** X12.  Only a [RefResolutionError] of the resolution itself is turned into
    [ValidationError]: any other exception of the resolver reaches the
    caller as it is, and so does every exception raised while the violations
    are computed, a [RefResolutionError] of a nested reference included. *)
Theorem validate_engine_errors_propagate {W} (h : handler W) (w : W)
    (schema : pydict) (root : string) (message : Message.t) :
  dict_get schema "id" = Some (VStr root) →
  String.prefix root (Message.schema message) = true →
  (∀ e, (h _ (Resolve (Message.schema message)) w).1 = Raise e →
        e ≠ RefResolutionError →
        outcome (run h (validate schema message) w) = Raise e) ∧
  (∀ url sub w1 e,
     h _ (Resolve (Message.schema message)) w = (Ok (url, sub), w1) →
     (h _ (IterErrors (Message.data message) (Some sub)) w1).1 = Raise e →
     outcome (run h (validate schema message) w) = Raise e).
Proof.
  intros Hid Hp. rewrite (run_validate h w schema root message Hid), Hp. split.
  - intros e He Hne.
    destruct (h _ (Resolve (Message.schema message)) w) as [r w1]. cbn in He. subst r.
    by destruct e.
  - intros url sub w1 e Hres Herr. rewrite Hres. cbn [snd].
    destruct (h _ (IterErrors (Message.data message) (Some sub)) w1) as [r w2].
    cbn in Herr. by subst r.
Qed.

(** X13.  The calls [validate] makes: none when the root check fails; the
    resolution alone when it raises; otherwise the resolution followed by one
    structural check, of the message's payload against the very sub-schema
    the resolver returned. *)
Theorem validate_calls {W} (h : handler W) (w : W)
    (schema : pydict) (root : string) (message : Message.t) :
  dict_get schema "id" = Some (VStr root) →
  let r := run h (validate schema message) w in
  (String.prefix root (Message.schema message) = false → calls r = []) ∧
  (String.prefix root (Message.schema message) = true →
   (∀ e, (h _ (Resolve (Message.schema message)) w).1 = Raise e →
         calls r = [Ev (Resolve (Message.schema message))]) ∧
   (∀ url sub w1,
      h _ (Resolve (Message.schema message)) w = (Ok (url, sub), w1) →
      calls r = [Ev (Resolve (Message.schema message));
                 Ev (IterErrors (Message.data message) (Some sub))])).
Proof.
  intros Hid r. subst r. rewrite (run_validate h w schema root message Hid). split.
  - by intros ->.
  - intros ->. split.
    + intros e He.
      destruct (h _ (Resolve (Message.schema message)) w) as [r w1]. cbn in He. subst r.
      by destruct e.
    + intros url sub w1 Hres. rewrite Hres. cbn [snd].
      by destruct (h _ (IterErrors (Message.data message) (Some sub)) w1).
Qed.

(** X14.  [validate] returns normally exactly when the document has a string
    [id] that the message's reference starts with, the reference resolves,
    and the structural check of the payload against the resolved sub-schema
    reports no violation. *)
Theorem validate_accepts_iff {W} (h : handler W) (w : W)
    (schema : pydict) (message : Message.t) :
  outcome (run h (validate schema message) w) = Ok tt ↔
  ∃ root url sub w1,
    dict_get schema "id" = Some (VStr root) ∧
    String.prefix root (Message.schema message) = true ∧
    h _ (Resolve (Message.schema message)) w = (Ok (url, sub), w1) ∧
    (h _ (IterErrors (Message.data message) (Some sub)) w1).1 = Ok [].
Proof.
  split.
  - destruct (dict_get schema "id") as [v|] eqn:Hid.
    + assert ((∃ s, v = VStr s) ∨ ∀ s, v ≠ VStr s) as [[root ->] | Hns]
        by (destruct v; eauto; right; intros ? [=]).
      * rewrite (run_validate h w schema root message Hid).
        destruct (String.prefix root (Message.schema message)) eqn:Hp; [| done].
        destruct (h _ (Resolve (Message.schema message)) w) as [[[url sub]|e] w1] eqn:Hres.
        -- cbn [snd].
           destruct (h _ (IterErrors (Message.data message) (Some sub)) w1)
             as [[[|x errs]|e] w2] eqn:Herr; try done.
           intros _. exists root, url, sub, w1. by rewrite Herr.
        -- by destruct e.
      * by rewrite (proj2 (validate_bad_root_id_runs h w schema message) v Hid Hns).
    + by rewrite (proj1 (validate_bad_root_id_runs h w schema message) Hid).
  - intros (root & url & sub & w1 & Hid & Hp & Hres & Herr).
    rewrite (run_validate h w schema root message Hid), Hp, Hres. cbn [snd].
    destruct (h _ (IterErrors (Message.data message) (Some sub)) w1) as [r w2].
    cbn in Herr. by subst r.
Qed.

(** X15.  The root check is a textual prefix test: [validate] goes on to the
    resolver exactly when the message's reference is the root id followed by
    any suffix. *)
Theorem validate_root_check {W} (h : handler W) (w : W)
    (schema : pydict) (root : string) (message : Message.t) :
  dict_get schema "id" = Some (VStr root) →
  calls (run h (validate schema message) w) ≠ [] ↔
  ∃ suffix, Message.schema message = root +:+ suffix.
Proof.
  intros Hid. rewrite <- prefix_iff, (run_validate h w schema root message Hid).
  destruct (String.prefix root (Message.schema message)).
  - split; [done | intros _].
    destruct (h _ (Resolve (Message.schema message)) w) as [[[url sub]|e] w1].
    + cbn [snd]. by destruct (h _ (IterErrors _ _) w1).
    + by destruct e.
  - split; [by intros [] | done].
Qed.

(** ** Further properties of the UUID predicate *)

Lemma all_chars_app (P : ascii → bool) (s1 s2 : string) :
  all_chars P (s1 +:+ s2) = all_chars P s1 && all_chars P s2.
Proof.
  unfold all_chars. induction s1 as [|c s1 IH]; [done |].
  rewrite append_cons. cbn [list_ascii_of_string forallb]. by rewrite IH, andb_assoc.
Qed.

Lemma hex_group_chars (n : nat) (g : string) :
  hex_group n g → all_chars uuid_char g = true.
Proof.
  intros [_ Hall]. unfold all_chars in *. rewrite forallb_forall in *.
  intros c Hc. unfold uuid_char. by rewrite (Hall c Hc).
Qed.

Lemma canonical_uuid_chars (u : string) :
  canonical_uuid u → all_chars uuid_char u = true.
Proof.
  intros (g1 & g2 & g3 & g4 & g5 & H1 & H2 & H3 & H4 & H5 & ->).
  rewrite !all_chars_app.
  rewrite (hex_group_chars _ _ H1), (hex_group_chars _ _ H2),
    (hex_group_chars _ _ H3), (hex_group_chars _ _ H4), (hex_group_chars _ _ H5).
  reflexivity.
Qed.

(** X2.  A string the predicate accepts has 36 or 37 characters, each of
    them a lowercase hexadecimal digit, a hyphen or a newline: an uppercase
    digit, a space or any other character makes a string fail. *)
Theorem check_human_uuid_accepted_shape (s : string) :
  check_human_uuid (VStr s) = true →
  (String.length s = 36%nat ∨ String.length s = 37%nat) ∧
  all_chars uuid_char s = true.
Proof.
  unfold check_human_uuid. intros [Hu | (u & Hu & ->)]%human_uuid_re_matches.
  - split; [left; by apply canonical_uuid_length | by apply canonical_uuid_chars].
  - split.
    + right. rewrite length_append, (canonical_uuid_length u Hu). reflexivity.
    + rewrite all_chars_app, (canonical_uuid_chars u Hu). reflexivity.
Qed.

(** ** Version strings the schema check records as invalid *)




(** ** The further properties at sample inputs *)

Lemma check_human_uuid_accepted_shape_witness :
  (String.length sample_uuid = 36%nat ∨ String.length sample_uuid = 37%nat) ∧
  all_chars uuid_char sample_uuid = true.
Proof. exact (check_human_uuid_accepted_shape sample_uuid eq_refl). Defined.

Lemma check_schema_parent_failure_witness :
  outcome (run rejecting (check_schema [("trip_created", 1)] [("id", VInt 5)]) tt)
  = Raise (SchemaError ["5 is not of type 'string'"]).
Proof.
  exact (proj1 (check_schema_parent_failure rejecting tt [("trip_created", 1)]
                  [("id", VInt 5)] _ eq_refl)).
Defined.

Lemma check_schema_accepts_iff_witness :
  outcome (run permissive (check_schema [("trip_created", 1)] doc_sample) tt) = Ok tt.
Proof.
  apply (check_schema_accepts_iff permissive tt [("trip_created", 1)] doc_sample eq_refl).
  eexists. split_and!; [reflexivity | reflexivity |].
  intros k Hk. apply list_elem_of_singleton in Hk as ->. reflexivity.
Defined.



Lemma check_schema_collects_all_witness :
  ∃ errs,
    outcome (run permissive
               (check_schema [("trip_created", 1); ("user_updated", 1)] doc_bad_shape) tt)
    = raise_if_any errs ∧
    length errs = 3%nat.
Proof.
  exact (check_schema_collects_all permissive tt
           [("trip_created", 1); ("user_updated", 1)] doc_bad_shape _
           eq_refl eq_refl ltac:(discriminate) eq_refl).
Defined.

Lemma check_schema_outcomes_witness :
  let out := outcome (run permissive
                        (check_schema [("trip_created", 1)] doc_empty_version) tt) in
  out = Ok tt ∨ (∃ errs, errs ≠ [] ∧ out = Raise (SchemaError errs))
  ∨ out = Raise AttributeError.
Proof.
  exact (proj1 (check_schema_outcomes permissive tt [("trip_created", 1)]
                  doc_empty_version eq_refl)).
Defined.

Lemma check_schema_reads_only_schemas_witness :
  outcome (run permissive (check_schema [("trip_created", 2)] doc_sample) tt)
  = outcome (run permissive
               (check_schema [("trip_created", 2)]
                  [("schemas", VDict [("trip_created", VDict [("1.0", VDict [])])]);
                   ("title", VStr "no id here")]) tt).
Proof.
  exact (check_schema_reads_only_schemas permissive tt tt [("trip_created", 2)]
           doc_sample _ eq_refl eq_refl eq_refl).
Defined.

Lemma check_schema_ignores_definitions_witness :
  outcome (run permissive
             (check_schema [("trip_created", 1)]
                [("schemas", VDict [("trip_created", VDict [("1.0", VInt 7)])])]) tt)
  = outcome (run permissive (check_schema [("trip_created", 1)] doc_sample) tt).
Proof.
  exact (check_schema_ignores_definitions permissive tt tt [("trip_created", 1)]
           (λ _, VInt 7) doc_sample
           [("schemas", VDict [("trip_created", VDict [("1.0", VInt 7)])])]
           _ eq_refl eq_refl eq_refl eq_refl).
Defined.

Lemma validate_bad_root_id_witness :
  run permissive (validate [("schemas", VDict [])] sample_message) tt
  = (Raise KeyError, tt, []) ∧
  run permissive (validate [("id", VInt 5)] sample_message) tt
  = (Raise TypeError, tt, []).
Proof.
  split.
  - exact (proj1 (validate_bad_root_id permissive tt [("schemas", VDict [])]
                    sample_message) eq_refl).
  - refine (proj2 (validate_bad_root_id permissive tt [("id", VInt 5)]
                     sample_message) (VInt 5) eq_refl _).
    intros s. discriminate.
Defined.

Lemma validate_engine_errors_propagate_witness :
  outcome (run nested_dangling (validate doc_sample sample_message) tt)
  = Raise RefResolutionError.
Proof.
  exact (proj2 (validate_engine_errors_propagate nested_dangling tt doc_sample
                  "https://hedwig.example/schema" sample_message eq_refl eq_refl)
           _ _ _ _ eq_refl eq_refl).
Defined.

Lemma validate_calls_witness :
  calls (run permissive (validate doc_sample sample_message) tt)
  = [Ev (Resolve (Message.schema sample_message));
     Ev (IterErrors (Message.data sample_message) (Some (VDict [])))].
Proof.
  exact (proj2 (proj2 (validate_calls permissive tt doc_sample
                         "https://hedwig.example/schema" sample_message eq_refl)
                  eq_refl) _ _ _ eq_refl).
Defined.

Lemma validate_accepts_iff_witness :
  outcome (run permissive (validate doc_sample sample_message) tt) = Ok tt.
Proof.
  apply (validate_accepts_iff permissive tt doc_sample sample_message).
  exists "https://hedwig.example/schema"%string, (Message.schema sample_message),
    (VDict []), tt.
  split_and!; reflexivity.
Defined.

Lemma validate_root_check_witness :
  calls (run permissive (validate doc_sample sample_message) tt) ≠ [].
Proof.
  apply (validate_root_check permissive tt doc_sample "https://hedwig.example/schema"
           sample_message eq_refl).
  by exists "#/schemas/trip_created/1.0"%string.
Defined.

